(** * cfexp: result algebra, capture sets and the memoized traversal engine

  A shallow embedding of [packages/cfexp/src/index.ts].

  - JavaScript objects that are compared by reference (capture keys,
    capture records, results, transformer closures) carry an object
    reference [ObjId]; allocation is an effect of the program monad.
  - [Map] and [Set] iterate in insertion order, so they are modelled by
    insertion-ordered association lists ([JsMap], [JsSet]); a [WeakMap]
    cannot be iterated and is modelled by a finite map ([gmap]).
  - Code that calls back into the traversal function, allocates, reads the
    production table or throws lives in the program monad [Prog]; the
    engine [run] interprets it over the traversal state with fuel. *)

From stdpp Require Import base list gmap strings.

(** Object references: every [new], object literal and closure gets one. *)
Definition ObjId := nat.

(* ------------------------------------------------------------------ *)
(** ** JavaScript [Set] and [Map], in insertion order *)

Module JsSet.
Section JsSet.
Context {K : Type} `{EqDecision K}.

Definition t := list K.

Definition empty : t := [].

Definition has (k : K) (s : t) : bool := bool_decide (k ∈ s).

(** [Set.prototype.add]: a value already present keeps its position. *)
Definition add (k : K) (s : t) : t := if has k s then s else s ++ [k].

(** [new Set(iterable)] *)
Definition of_list (l : list K) : t := fold_left (fun s k => add k s) l empty.

Definition size (s : t) : nat := length s.
End JsSet.
Arguments t : clear implicits.
End JsSet.

Module JsMap.
Section JsMap.
Context {K V : Type} `{EqDecision K}.

Definition t := list (K * V).

Definition empty : t := [].

Fixpoint get (k : K) (m : t) : option V :=
  match m with
  | [] => None
  | (k', v) :: m' => if decide (k = k') then Some v else get k m'
  end.

Definition has (k : K) (m : t) : bool :=
  match get k m with Some _ => true | None => false end.

(** [Map.prototype.set]: an existing key keeps its position, a new key
    goes to the end. *)
Fixpoint set (k : K) (v : V) (m : t) : t :=
  match m with
  | [] => [(k, v)]
  | (k', v') :: m' =>
      if decide (k = k') then (k, v) :: m' else (k', v') :: set k v m'
  end.

Fixpoint delete (k : K) (m : t) : t :=
  match m with
  | [] => []
  | (k', v') :: m' =>
      if decide (k = k') then delete k m' else (k', v') :: delete k m'
  end.

Definition entries (m : t) : list (K * V) := m.

Definition values (m : t) : list V := map snd m.
End JsMap.
Arguments t : clear implicits.
End JsMap.

(* ------------------------------------------------------------------ *)
(** ** Values, capture keys and capture records *)

(** Untyped input and output values. Primitives are compared by value and
  objects by reference, which is the key equality of [Map]. *)
Inductive Val : Type :=
| VUndefined
| VNull
| VBool (b : bool)
| VNum (n : Z)
| VStr (s : string)
| VObj (ref : ObjId).

#[global] Instance Val_eq_dec : EqDecision Val.
Proof. solve_decision. Defined.

(** [createCaptureKey] returns a fresh empty object: a key is its identity. *)
Definition CaptureKey := ObjId.

(** Transformers are closures, identified by reference. *)
Definition TrId := ObjId.

(** [interface Capture { input; output }]. The record is compared by
  reference ([capture_ref]); [capture_output] points to the captured
  result object. *)
Record Capture : Type := mkCapture {
capture_ref : ObjId;
capture_input : Val;
capture_output : ObjId
}.

#[global] Instance Capture_eq_dec : EqDecision Capture.
Proof. solve_decision. Defined.

(* ------------------------------------------------------------------ *)
(** ** [class CaptureSet] *)

Module CaptureSet.

Record t : Type := mk {
  overloadedKeys : JsSet.t CaptureKey;
  definedKeys : JsMap.t CaptureKey Capture
}.

(** The field initialisers: both collections start empty. *)
Definition init : t :=
  {| overloadedKeys := JsSet.empty; definedKeys := JsMap.empty |}.

Definition add (key : CaptureKey) (io : Capture) (self : t) : t :=
  if JsSet.has key (overloadedKeys self) then self
  else if JsMap.has key (definedKeys self) then
    {| overloadedKeys := JsSet.add key (overloadedKeys self);
       definedKeys := JsMap.delete key (definedKeys self) |}
  else
    {| overloadedKeys := overloadedKeys self;
       definedKeys := JsMap.set key io (definedKeys self) |}.

Definition get (key : CaptureKey) (self : t) : option Capture :=
  JsMap.get key (definedKeys self).

(** [this.overloadedKeys.add(key)] in the constructor loop *)
Definition markOverloaded (key : CaptureKey) (self : t) : t :=
  {| overloadedKeys := JsSet.add key (overloadedKeys self);
     definedKeys := definedKeys self |}.

(** One iteration of the constructor's outer loop: the child's overloaded
    keys are copied first, then its defined entries are offered to [add]. *)
Definition absorb (self child : t) : t :=
  let self1 :=
    fold_left (fun s key => markOverloaded key s) (overloadedKeys child) self in
  fold_left (fun s kv => add kv.1 kv.2 s)
            (JsMap.entries (definedKeys child)) self1.

(** [constructor(captureSets: CaptureSet[])] *)
Definition new (captureSets : list t) : t :=
  fold_left absorb captureSets init.

End CaptureSet.

(* ------------------------------------------------------------------ *)
(** ** [ValidationResult = Valid | Invalid | Failure] *)

(** The three result classes. [instanceof] is a match on the constructor;
    [ref] is the identity of the result object. *)
Inductive ValidationResult : Type :=
| Valid (ref : ObjId) (value : Val) (warnings : list string)
        (captures : list CaptureSet.t)
| Invalid (ref : ObjId) (value : Val) (errors warnings : list string)
          (captures : list CaptureSet.t)
| Failure (ref : ObjId) (errors warnings : list string).

Definition result_ref (r : ValidationResult) : ObjId :=
  match r with Valid ref _ _ _ | Invalid ref _ _ _ _ | Failure ref _ _ => ref end.

(** Field reads; [None] is a field the class never assigns ([undefined]). *)
Definition value (r : ValidationResult) : option Val :=
  match r with
  | Valid _ v _ _ | Invalid _ v _ _ _ => Some v
  | Failure _ _ _ => None
  end.

Definition errors (r : ValidationResult) : option (list string) :=
  match r with
  | Valid _ _ _ _ => None
  | Invalid _ _ es _ _ | Failure _ es _ => Some es
  end.

Definition warnings (r : ValidationResult) : list string :=
  match r with Valid _ _ ws _ | Invalid _ _ _ ws _ | Failure _ _ ws => ws end.

Definition captures (r : ValidationResult) : option (list CaptureSet.t) :=
  match r with
  | Valid _ _ _ cs | Invalid _ _ _ _ cs => Some cs
  | Failure _ _ _ => None
  end.

(** [result.errors || []] *)
Definition errors_or_empty (r : ValidationResult) : list string :=
  default [] (errors r).

Definition isValid (x : ValidationResult) : bool :=
  match x with Valid _ _ _ _ => true | _ => false end.

Definition isInvalid (x : ValidationResult) : bool :=
  match x with Invalid _ _ _ _ _ => true | _ => false end.

Definition isFailure (x : ValidationResult) : bool :=
  match x with Failure _ _ _ => true | _ => false end.

(* ------------------------------------------------------------------ *)
(** ** The program monad *)

(** Effects of the library code: object allocation, a call of the engine's
    traversal function, a read of the [productionContext] table, [throw]. *)
Inductive Prog (A : Type) : Type :=
| Done (a : A)
| NewObject (k : ObjId -> Prog A)
| Request (i : Val) (t : TrId) (k : ValidationResult -> Prog A)
| ProducerOf (r : ObjId) (k : option TrId -> Prog A)
| Throw (msg : string).

Arguments Done {A} a.
Arguments NewObject {A} k.
Arguments Request {A} i t k.
Arguments ProducerOf {A} r k.
Arguments Throw {A} msg.

Fixpoint bindP {A B : Type} (p : Prog A) (f : A -> Prog B) : Prog B :=
  match p with
  | Done a => f a
  | NewObject k => NewObject (fun ref => bindP (k ref) f)
  | Request i t k => Request i t (fun r => bindP (k r) f)
  | ProducerOf r k => ProducerOf r (fun o => bindP (k o) f)
  | Throw msg => Throw msg
  end.

#[global] Instance Prog_ret : MRet Prog := @Done.
#[global] Instance Prog_bind : MBind Prog := fun A B f p => bindP p f.

(** [interface Transform] and [interface Transformer]. A transformer that is
    passed around is named by its reference; the engine resolves it. *)
Definition Transform : Type := Val -> TrId -> Prog ValidationResult.
Definition Transformer : Type := Val -> Transform -> Prog ValidationResult.

(* ------------------------------------------------------------------ *)
(** ** Constructors [valid], [invalid], [failure] *)

(** An argument of type [string | string[]]. *)
Inductive StringOrArray : Type :=
| Str (s : string)
| Arr (l : list string).

(** [typeof x === 'string' ? [x] : x] *)
Definition toArray (x : StringOrArray) : list string :=
  match x with Str s => [s] | Arr l => l end.

Definition new_Valid (value : Val) (warnings : list string)
    (captures : list CaptureSet.t) : Prog ValidationResult :=
  NewObject (fun ref => Done (Valid ref value warnings captures)).

Definition new_Invalid (value : Val) (errors warnings : list string)
    (captures : list CaptureSet.t) : Prog ValidationResult :=
  NewObject (fun ref => Done (Invalid ref value errors warnings captures)).

Definition new_Failure (errors warnings : list string) : Prog ValidationResult :=
  NewObject (fun ref => Done (Failure ref errors warnings)).

(** An omitted argument is [None] and takes the parameter's default. *)
Definition valid (value : Val) (warnings : option StringOrArray)
    (captures : option (list CaptureSet.t)) : Prog ValidationResult :=
  let warnings := default (Arr []) warnings in
  let captures := default [CaptureSet.new []] captures in
  new_Valid value (toArray warnings) captures.

Definition invalid (value : Val) (errors warnings : option StringOrArray)
    (captures : option (list CaptureSet.t)) : Prog ValidationResult :=
  let errors := default (Arr []) errors in
  let warnings := default (Arr []) warnings in
  let captures := default [CaptureSet.new []] captures in
  new_Invalid value (toArray errors) (toArray warnings) captures.

Definition failure (errors : StringOrArray) (warnings : option StringOrArray)
    : Prog ValidationResult :=
  let warnings := default (Arr []) warnings in
  new_Failure (toArray errors) (toArray warnings).

(* ------------------------------------------------------------------ *)
(** ** [crossProductCaptures] *)

Definition flatMap {T U : Type} (arr : list T) (fn : T -> list U) : list U :=
  concat (map fn arr).

Definition crossProduct_undefined : string :=
  "cross product is undefined when no CaptureSet arrays are provided".

Fixpoint crossProductCaptures (captures : list (list CaptureSet.t))
    : Prog (list CaptureSet.t) :=
  match captures with
  | [] => Throw crossProduct_undefined
  | [only] => Done only
  | foos :: (_ :: _) as rest =>
      bars ← crossProductCaptures rest;
      if Nat.eqb (length foos) 0 then Done bars
      else Done (flatMap foos (fun foo =>
                   map (fun bar => CaptureSet.new [foo; bar]) bars))
  end.

(* ------------------------------------------------------------------ *)
(** ** [__ValidationResult__]: [bind], [get], [getCanonical] *)

(** [self instanceof Valid || self instanceof Invalid], with the fields both
    classes have. *)
Definition valueAndCaptures (r : ValidationResult)
    : option (Val * list CaptureSet.t) :=
  match r with
  | Valid _ v _ cs | Invalid _ v _ _ cs => Some (v, cs)
  | Failure _ _ _ => None
  end.

(** The branch for a result that is none of the three classes is dead code
    here: the type has no fourth constructor. *)
Definition bind (self : ValidationResult)
    (binding : Val -> Prog ValidationResult) : Prog ValidationResult :=
  match valueAndCaptures self with
  | None => Done self
  | Some (selfValue, selfCaptures) =>
      result ← binding selfValue;
      let warnings := warnings self ++ warnings result in
      let errors := errors_or_empty self ++ errors_or_empty result in
      match valueAndCaptures result with
      | None => failure (Arr errors) (Some (Arr warnings))
      | Some (resultValue, resultCaptures) =>
          captures ← crossProductCaptures [selfCaptures; resultCaptures];
          if Nat.eqb (length errors) 0
          then valid resultValue (Some (Arr warnings)) (Some captures)
          else invalid resultValue (Some (Arr errors)) (Some (Arr warnings))
                       (Some captures)
      end
  end.

(** [Valid.get], [Invalid.get] and [Failure.get]: one slot per capture set. *)
Definition get (key : CaptureKey) (self : ValidationResult)
    : list (option Capture) :=
  match self with
  | Valid _ _ _ cs | Invalid _ _ _ _ cs =>
      map (fun captureSet => CaptureSet.get key captureSet) cs
  | Failure _ _ _ => []
  end.

Definition just {T : Type} (t : option T) : Prop := is_Some t.

#[global] Instance just_dec {T : Type} (t : option T) : Decision (just t).
Proof. unfold just. apply _. Defined.

Definition getCanonical (key : CaptureKey) (self : ValidationResult)
    : option Capture :=
  let rawValues := JsSet.of_list (filter just (get key self)) in
  if Nat.eqb (JsSet.size rawValues) 1 then
    match rawValues with
    | rawValue :: _ => rawValue
    | [] => None
    end
  else None.

(* ------------------------------------------------------------------ *)
(** ** [capture] *)

Definition capture (key : CaptureKey) (transformer : TrId) : Transformer :=
  fun input transform =>
    output ← transform input transformer;
    let captures := CaptureSet.new [] in
    io ← NewObject (fun ref => Done (mkCapture ref input (result_ref output)));
    let captures := CaptureSet.add key io captures in
    bind output (fun value => valid value None (Some [captures])).

(* ------------------------------------------------------------------ *)
(** ** [class MultiMap] and [mergeResults] *)

Module MultiMap.
Section MultiMap.
Context {K V : Type} `{EqDecision K}.

Definition t := JsMap.t K (list V).

Definition empty : t := JsMap.empty.

(** [get] installs an empty array for a key it has not seen. *)
Definition get (key : K) (self : t) : list V * t :=
  match JsMap.get key self with
  | Some values => (values, self)
  | None => ([], JsMap.set key [] self)
  end.

(** [this.get(key).push(...values)]: the array stored under [key] grows in
    place. *)
Definition add (key : K) (values : list V) (self : t) : t :=
  let '(old, self1) := get key self in
  JsMap.set key (old ++ values) self1.
End MultiMap.
Arguments t : clear implicits.
End MultiMap.

(** The [for ... of results] loop: stops at the first [Failure]. *)
Fixpoint collectUntilFailure (results : list ValidationResult)
    (values : list Val) (allCaptures : MultiMap.t (option TrId) CaptureSet.t)
    : Prog (list Val * MultiMap.t (option TrId) CaptureSet.t) :=
  match results with
  | [] => Done (values, allCaptures)
  | result :: rest =>
      match valueAndCaptures result with
      | None => Done (values, allCaptures)
      | Some (resultValue, resultCaptures) =>
          ProducerOf (result_ref result) (fun producer =>
            collectUntilFailure rest (values ++ [resultValue])
              (MultiMap.add producer resultCaptures allCaptures))
      end
  end.

Definition mergeResults (results : list ValidationResult)
    (mapping : list Val -> Prog ValidationResult) : Prog ValidationResult :=
  let warnings := flatMap results warnings in
  let errors := flatMap results errors_or_empty in
  collected ← collectUntilFailure results [] MultiMap.empty;
  let values := collected.1 in
  let allCaptures := collected.2 in
  captures ← crossProductCaptures (JsMap.values allCaptures);
  if Nat.eqb (length values) (length results) then
    value ← mapping values;
    match value with
    | Failure _ valueErrors valueWarnings =>
        failure (Arr (valueErrors ++ errors))
                (Some (Arr (valueWarnings ++ warnings)))
    | _ =>
        if Nat.eqb (length errors) 0
        then bind value (fun foo =>
               valid foo (Some (Arr warnings)) (Some captures))
        else bind value (fun foo =>
               invalid foo (Some (Arr errors)) (Some (Arr warnings))
                       (Some captures))
    end
  else failure (Arr errors) (Some (Arr warnings)).

(* ------------------------------------------------------------------ *)
(** ** The traversal engine: [__transform__] and its closure [transform] *)

(** What the traversal function does, for the ghost log: it invokes
    [t(i, transform)], and it answers a request for [(t, i)] with the result
    object [ref]. *)
Inductive Event : Type :=
| Invoked (t : TrId) (i : Val)
| Answered (t : TrId) (i : Val) (ref : ObjId).

#[global] Instance Event_eq_dec : EqDecision Event.
Proof. solve_decision. Defined.

(** State the traversal reads and writes. [productionContext] is the
    module-level [WeakMap]; [cache] is the [WeakMap] a call of
    [__transform__] allocates. [log] is ghost state: the events of the
    traversal function, oldest first. No code reads it. *)
Record State : Type := mkState {
  next_ref : ObjId;
  productionContext : gmap ObjId TrId;
  cache : gmap TrId (JsMap.t Val ValidationResult);
  log : list Event
}.

Inductive Outcome (A : Type) : Type :=
| Ret (a : A) (s : State)
| Thrown (msg : string)
| OutOfFuel.

Arguments Ret {A} a s.
Arguments Thrown {A} msg.
Arguments OutOfFuel {A}.

Definition allocate (s : State) : State :=
  {| next_ref := S (next_ref s);
     productionContext := productionContext s;
     cache := cache s;
     log := log s |}.

(** [foo = new Map(); cache.set(t, foo)] when [t] has no table yet, and the
    ghost log entry for the invocation that follows. *)
Definition enter (t : TrId) (i : Val) (s : State) : State :=
  {| next_ref := next_ref s;
     productionContext := productionContext s;
     cache := match cache s !! t with
              | Some _ => cache s
              | None => <[t := JsMap.empty]> (cache s)
              end;
     log := log s ++ [Invoked t i] |}.

(** [productionContext.set(result, t); foo.set(i, result)]. [foo] is the
    table installed under [t]; it is never replaced, so it is the table
    found under [t] when the call returns. *)
Definition memoize (t : TrId) (i : Val) (result : ValidationResult)
    (s : State) : State :=
  {| next_ref := next_ref s;
     productionContext := <[result_ref result := t]> (productionContext s);
     cache := <[t := JsMap.set i result (default JsMap.empty (cache s !! t))]>
                (cache s);
     log := log s |}.

(** [return bar] and [return result]: the ghost log entry for the answer. *)
Definition answer (t : TrId) (i : Val) (result : ValidationResult)
    (s : State) : State :=
  {| next_ref := next_ref s;
     productionContext := productionContext s;
     cache := cache s;
     log := log s ++ [Answered t i (result_ref result)] |}.

(** The end of an invocation: the result is stored and returned. *)
Definition leave (t : TrId) (i : Val) (result : ValidationResult)
    (s : State) : State :=
  answer t i result (memoize t i result s).

(** [cache.get(t)] then [foo.get(i)] *)
Definition cached (t : TrId) (i : Val) (s : State) : option ValidationResult :=
  foo ← cache s !! t; JsMap.get i foo.

(** The traversal function handed to every transformer. Its body is the
    [Request] case of [run]. *)
Definition transform : Transform := fun i t => Request i t Done.

(** The interpreter. [env] resolves a transformer reference to its closure.
    Fuel bounds the depth of nested transformer invocations; a cache hit
    needs none. *)
Fixpoint run (env : TrId -> Transformer) (fuel : nat) (A : Type)
    : Prog A -> State -> Outcome A :=
  fix go (p : Prog A) (s : State) {struct p} : Outcome A :=
    match p with
    | Done a => Ret a s
    | NewObject k => go (k (next_ref s)) (allocate s)
    | ProducerOf r k => go (k (productionContext s !! r)) s
    | Throw msg => Thrown msg
    | Request i t k =>
        match cached t i s with
        | Some bar => go (k bar) (answer t i bar s)
        | None =>
            match fuel with
            | 0 => OutOfFuel
            | S fuel' =>
                match run env fuel' ValidationResult
                          (env t i transform) (enter t i s) with
                | Ret result s1 => go (k result) (leave t i result s1)
                | Thrown msg => Thrown msg
                | OutOfFuel => OutOfFuel
                end
            end
        end
    end.

Arguments run env fuel {A} p s.

(** A fresh traversal: new cache, empty ghost log. *)
Definition freshTraversal (s : State) : State :=
  {| next_ref := next_ref s;
     productionContext := productionContext s;
     cache := ∅;
     log := [] |}.

(** The exported [transform]: the root transformer is invoked directly. *)
Definition __transform__ (env : TrId -> Transformer) (fuel : nat)
    (input : Val) (transformer : TrId) (s : State) : Outcome ValidationResult :=
  run env fuel (env transformer input transform) (freshTraversal s).

Definition initialState : State :=
  {| next_ref := 0; productionContext := ∅; cache := ∅; log := [] |}.

(* ------------------------------------------------------------------ *)
(** ** Combinators: [intersection], [union], [chain] *)

(** [arr.map(f)] for an effectful [f], left to right. *)
Fixpoint mapP {T U : Type} (f : T -> Prog U) (arr : list T) : Prog (list U) :=
  match arr with
  | [] => Done []
  | x :: rest => y ← f x; ys ← mapP f rest; Done (y :: ys)
  end.

(** [arr.reduce(f, init)] for an effectful [f]. *)
Fixpoint reduce {T R : Type} (f : R -> T -> Prog R) (arr : list T) (init : R)
    : Prog R :=
  match arr with
  | [] => Done init
  | x :: rest => acc ← f init x; reduce f rest acc
  end.

Definition intersection (transformers : list TrId) : Transformer :=
  fun input transform =>
    results ← mapP (fun transformer => transform input transformer) transformers;
    mergeResults results (fun _ => valid input None None).

Fixpoint unionLoop (transform : Transform) (input : Val)
    (transformers : list TrId) (firstInvalid firstFailure : option ValidationResult)
    : Prog ValidationResult :=
  match transformers with
  | [] =>
      match firstInvalid, firstFailure with
      | Some r, _ => Done r
      | None, Some r => Done r
      | None, None => failure (Str "The impossible happened") None
      end
  | transformer :: rest =>
      result ← transform input transformer;
      if isValid result then Done result
      else if isInvalid result then
        unionLoop transform input rest
                  (Some (default result firstInvalid)) firstFailure
      else
        unionLoop transform input rest
                  firstInvalid (Some (default result firstFailure))
  end.

Definition union (transformers : list TrId) : Transformer :=
  fun input transform => unionLoop transform input transformers None None.

(** [chain(first, ...rest)]; every overload takes at least two transformers. *)
Definition chain (first : TrId) (rest : list TrId) : Transformer :=
  fun input transform =>
    result ← transform input first;
    reduce (fun lastResult transformer =>
              bind lastResult (fun lastValue => transform lastValue transformer))
           rest result.

(* ------------------------------------------------------------------ *)
(** ** Vocabulary of the statements *)

(** A key that is marked overloaded and has no concrete mapping. *)
Definition Overloaded (key : CaptureKey) (cs : CaptureSet.t) : Prop :=
  key ∈ CaptureSet.overloadedKeys cs ∧ CaptureSet.get key cs = None.

(** What [crossProductCaptures] returns for two sibling lists. *)
Definition crossTwo (foos bars : list CaptureSet.t) : list CaptureSet.t :=
  if Nat.eqb (length foos) 0 then bars
  else flatMap foos (fun foo => map (fun bar => CaptureSet.new [foo; bar]) bars).

(** What [bind] builds from [self], the result [next] of the binding and
    the fresh reference [ref], when [self] is not a [Failure]. *)
Definition bound (self next : ValidationResult) (ref : ObjId) : ValidationResult :=
  let ws := warnings self ++ warnings next in
  let es := errors_or_empty self ++ errors_or_empty next in
  match valueAndCaptures next with
  | None => Failure ref es ws
  | Some (v, cs) =>
      let crossed := crossTwo (default [] (captures self)) cs in
      match es with
      | [] => Valid ref v ws crossed
      | _ :: _ => Invalid ref v es ws crossed
      end
  end.

(** An environment without transformers, for programs that make no request. *)
Definition noTransformers : TrId -> Transformer :=
  fun _ _ _ => Throw "no such transformer".

(** A traversal state whose next free reference is [n]. *)
Definition stateAt (n : ObjId) : State :=
  {| next_ref := n; productionContext := ∅; cache := ∅; log := [] |}.

(** The capture set [capture] builds: one key, one record. *)
Definition singleCapture (key : CaptureKey) (io : Capture) : CaptureSet.t :=
  CaptureSet.add key io (CaptureSet.new []).

(** Among the lookups of [key] in the capture sets of [r], [c] is found and
    no other capture is. *)
Definition OnlyCapture (key : CaptureKey) (r : ValidationResult) (c : Capture)
    : Prop :=
  Some c ∈ get key r ∧ ∀ c', Some c' ∈ get key r -> c' = c.

(** The pair an event is about. *)
Definition event_pair (e : Event) : TrId * Val :=
  match e with Invoked t i | Answered t i _ => (t, i) end.

(** The events about the pair [(t, i)], oldest first. *)
Definition history (t : TrId) (i : Val) (s : State) : list Event :=
  filter (fun e => event_pair e = (t, i)) (log s).

(** Number of invocations of transformer [t] on input [i] so far. *)
Definition invocations (t : TrId) (i : Val) (s : State) : nat :=
  length (filter (fun e => e = Invoked t i) (log s)).



(** What the traversal does to its state once a request for [(t, i)] has
    returned, other than starting or finishing a request for that same pair:
    running any program, and entering or leaving the invocation of another
    pair. *)
Inductive TraversalStep (env : TrId -> Transformer) (t : TrId) (i : Val)
    : State -> State -> Prop :=
| step_run fuel (A : Type) (p : Prog A) (a : A) s s' :
    run env fuel p s = Ret a s' -> TraversalStep env t i s s'
| step_enter t' i' s :
    (t', i') ≠ (t, i) -> TraversalStep env t i s (enter t' i' s)
| step_leave t' i' result s :
    (t', i') ≠ (t, i) -> TraversalStep env t i s (leave t' i' result s).

(** The requests a program can make are for pairs of rank below [n]. *)
Inductive RequestsBelow (rank : TrId -> Val -> nat) (n : nat) {A : Type}
    : Prog A -> Prop :=
| below_Done a : RequestsBelow rank n (Done a)
| below_NewObject k :
    (∀ ref, RequestsBelow rank n (k ref)) -> RequestsBelow rank n (NewObject k)
| below_Request i t k :
    rank t i < n -> (∀ r, RequestsBelow rank n (k r)) ->
    RequestsBelow rank n (Request i t k)
| below_ProducerOf r k :
    (∀ producer, RequestsBelow rank n (k producer)) ->
    RequestsBelow rank n (ProducerOf r k)
| below_Throw msg : RequestsBelow rank n (Throw msg).

(** A traversal without cycles: the evaluation of a pair (transformer,
    input) only requests pairs of lower rank. A transformer may request
    itself on another input, as a recursive schema does on a part of its
    input. *)
Definition Stratified (rank : TrId -> Val -> nat) (env : TrId -> Transformer)
    : Prop :=
  ∀ t i, RequestsBelow rank (rank t i) (env t i transform).

(** The log of one pair is in order: nothing before the pair is cached, then
    one invocation, then answers that are all the cached result. *)
Definition Memoized (t : TrId) (i : Val) (s : State) : Prop :=
  match cached t i s with
  | None => history t i s = []
  | Some r =>
      ∃ answered, history t i s = Invoked t i :: answered
                  ∧ Forall (fun e => e = Answered t i (result_ref r)) answered
  end.

(** Sample transformers written with the exported constructors. *)
Definition isFour : Transformer :=
  fun input _ =>
    if decide (input = VNum 4) then valid input None None
    else invalid input (Some (Str "expected 4")) None None.

Definition rejectAll : Transformer :=
  fun _ _ => failure (Str "rejected") (Some (Str "looked at it")).

(** A recursive transformer: it requests itself on the predecessor of its
    input. *)
Definition countdown (self : TrId) : Transformer :=
  fun input transform =>
    match input with
    | VNum n =>
        if decide (0 < n)%Z then
          below ← transform (VNum (n - 1)) self;
          bind below (fun _ => valid input (Some (Str "counted")) None)
        else valid input None None
    | _ => failure (Str "not a number") None
    end.

Definition countdownRank (_ : TrId) (i : Val) : nat :=
  match i with VNum n => Z.to_nat n | _ => 0 end.

(** A small schema: transformer references and their closures. *)
Definition sampleEnv (t : TrId) : Transformer :=
  match t with
  | 0 => isFour
  | 1 => rejectAll
  | 2 => capture 7 0
  | 3 => capture 7 1
  | 4 => chain 2 [2]
  | 5 => intersection [2; 2]
  | 6 => intersection [0; 2; 0]
  | _ => rejectAll
  end.

Definition sampleRank (t : TrId) (_ : Val) : nat :=
  match t with
  | 2 | 3 => 1
  | 4 | 5 | 6 => 2
  | _ => 0
  end.

(** The part of a result that sequencing is about: the value (absent for a
    [Failure]) and the diagnostics. *)
Record Outline : Type := mkOutline {
  o_value : option Val;
  o_warnings : list string;
  o_errors : list string
}.

Definition outline (r : ValidationResult) : Outline :=
  {| o_value := value r;
     o_warnings := warnings r;
     o_errors := errors_or_empty r |}.

(** Stage-order concatenation: a stage without a value ends the sequence,
    otherwise the next stage gives the value and its diagnostics follow. *)
Definition andThen (first next : Outline) : Outline :=
  match o_value first with
  | None => first
  | Some _ =>
      {| o_value := o_value next;
         o_warnings := o_warnings first ++ o_warnings next;
         o_errors := o_errors first ++ o_errors next |}
  end.

(** From every state of the class [Inv], program [p] returns a result with
    outline [o] and ends in the class. *)
Definition Yields (env : TrId -> Transformer) (fuel : nat) (Inv : State -> Prop)
    (p : Prog ValidationResult) (o : Outline) : Prop :=
  ∀ s, Inv s ->
    ∃ r s', run env fuel p s = Ret r s' ∧ outline r = o ∧ Inv s'.

(** The cache agrees with a table of expected outlines: an answer stored
    for a pair that the table lists has the outline listed. *)
Definition Consistent (expect : TrId -> Val -> option Outline) (s : State)
    : Prop :=
  ∀ t i r o, cached t i s = Some r -> expect t i = Some o -> outline r = o.

(** Three sample stages and the three groupings of their chain. *)
Definition stageA : Transformer :=
  fun v _ => valid v (Some (Str "a: trimmed")) None.

Definition stageB : Transformer :=
  fun v _ => invalid v (Some (Str "b: too long")) (Some (Str "b: slow")) None.

Definition stageC : Transformer :=
  fun v _ => valid v (Some (Arr ["c: first"; "c: second"])) None.

Definition stagesEnv (t : TrId) : Transformer :=
  match t with
  | 0 => stageA
  | 1 => stageB
  | 2 => stageC
  | 3 => chain 0 [1]
  | 4 => chain 1 [2]
  | 5 => chain 0 [1; 2]
  | 6 => chain 3 [2]
  | 7 => chain 0 [4]
  | _ => rejectAll
  end.

(** The outlines the sample stages yield on the input ["x"]. *)
Definition outlineA : Outline :=
  {| o_value := Some (VStr "x"); o_warnings := ["a: trimmed"]; o_errors := [] |}.

Definition outlineB : Outline :=
  {| o_value := Some (VStr "x"); o_warnings := ["b: slow"];
     o_errors := ["b: too long"] |}.

Definition outlineC : Outline :=
  {| o_value := Some (VStr "x"); o_warnings := ["c: first"; "c: second"];
     o_errors := [] |}.

Definition stagesExpect (t : TrId) (i : Val) : option Outline :=
  if decide (i = VStr "x") then
    match t with
    | 0 => Some outlineA
    | 1 => Some outlineB
    | 2 => Some outlineC
    | 3 => Some (andThen outlineA outlineB)
    | 4 => Some (andThen outlineB outlineC)
    | _ => None
    end
  else None.

(* ------------------------------------------------------------------ *)
(** ** [pojo.ts]: [constant] and [instance] *)

(** What the transformers of [pojo.ts] ask of the JavaScript runtime about
    a value: whether an object is callable (for [typeof]), the string a
    template literal prints for a value, the [instanceof] test against a
    constructor function, and the [name] of a constructor function. The
    conversion of a template literal is partial: it throws a [TypeError]
    for an object that has no conversion to a primitive, such as
    [Object.create(null)]; [None] stands for that. *)
Record Host : Type := mkHost {
  callable : ObjId -> bool;
  toString : Val -> option string;
  instanceOf : Val -> ObjId -> bool;
  nameOf : ObjId -> string
}.

(** What the template literal throws when a value has no conversion. *)
Definition conversion_TypeError : string :=
  "TypeError: Cannot convert object to primitive value".

(** [typeof v] *)
Definition typeOf (host : Host) (v : Val) : string :=
  match v with
  | VUndefined => "undefined"
  | VNull => "object"
  | VBool _ => "boolean"
  | VNum _ => "number"
  | VStr _ => "string"
  | VObj ref => if callable host ref then "function" else "object"
  end.

(** [input === value] is equality of [Val]: by value on primitives, by
    reference on objects. The numbers of [Val] are integers: [NaN], the
    one value that is not identical to itself, is not among them. The
    message of the second branch converts the input, then the value; the
    call ends with the [TypeError] of the first conversion that fails. *)
Definition constant (host : Host) (value : Val) : Transformer :=
  fun input _ =>
    if decide (input = value) then valid input None None
    else if decide (typeOf host input = typeOf host value) then
      match toString host input with
      | None => Throw conversion_TypeError
      | Some printedInput =>
          match toString host value with
          | None => Throw conversion_TypeError
          | Some printedValue =>
              invalid input
                (Some (Str ("Received input with value '" +:+ printedInput
                            +:+ "' where '" +:+ printedValue
                            +:+ "' was expected")))
                None None
          end
      end
    else
      failure
        (Str ("Received input of type '" +:+ typeOf host input
              +:+ "' where '" +:+ typeOf host value +:+ "' was expected"))
        None.

(** The constructor functions [instance] is called with. *)
Inductive Constructor : Type :=
| NumberConstructor
| StringConstructor
| BooleanConstructor
| OtherConstructor (ref : ObjId).

(** [primitiveTypesByConstructor.get(constructor)] *)
Definition primitiveTypesByConstructor (constructor : Constructor)
    : option string :=
  match constructor with
  | NumberConstructor => Some "number"
  | StringConstructor => Some "string"
  | BooleanConstructor => Some "boolean"
  | OtherConstructor _ => None
  end.

Definition instance (host : Host) (constructor : Constructor) : Transformer :=
  match primitiveTypesByConstructor constructor with
  | Some type =>
      fun input _ =>
        if decide (typeOf host input = type) then valid input None None
        else
          failure
            (Str ("Received input of type '" +:+ typeOf host input
                  +:+ "' where '" +:+ type +:+ "' was expected"))
            None
  | None =>
      fun input _ =>
        match constructor with
        | OtherConstructor ref =>
            if instanceOf host input ref then valid input None None
            else
              failure
                (Str ("Received input was not an instance of "
                      +:+ nameOf host ref +:+ " "))
                None
        | _ => failure (Str "unreachable") None
        end
  end.

(* ------------------------------------------------------------------ *)
(** ** Vocabulary for the combinators *)

(** The transformers [ts] are requested on [input] one after the other,
    from state [s]; they return the results [rs] and leave state [s']. *)
Inductive RunsEach (env : TrId -> Transformer) (fuel : nat)
    (traverse : Transform) (input : Val)
    : list TrId -> State -> list ValidationResult -> State -> Prop :=
| runs_nil s : RunsEach env fuel traverse input [] s [] s
| runs_cons t ts s r s1 rs s2 :
    run env fuel (traverse input t) s = Ret r s1 ->
    RunsEach env fuel traverse input ts s1 rs s2 ->
    RunsEach env fuel traverse input (t :: ts) s (r :: rs) s2.

(** The first result of a kind. *)
Definition firstOf (kind : ValidationResult -> bool)
    (rs : list ValidationResult) : option ValidationResult :=
  head (filter (fun r => kind r = true) rs).

(** The capture sets of a result, none for a [Failure]. *)
Definition worlds (r : ValidationResult) : list CaptureSet.t :=
  default [] (captures r).

(** The lists of capture sets [mergeResults] files for results without a
    [Failure], by producer, in the state's production table [pc]. *)
Definition grouped (pc : gmap ObjId TrId) (results : list ValidationResult)
    (all : MultiMap.t (option TrId) CaptureSet.t)
    : MultiMap.t (option TrId) CaptureSet.t :=
  fold_left (fun m r => MultiMap.add (pc !! result_ref r) (worlds r) m)
            results all.

(** A capture set that has something for [key]: a mapping or the
    overloaded mark. *)
Definition Mentions (key : CaptureKey) (cs : CaptureSet.t) : Prop :=
  key ∈ CaptureSet.overloadedKeys cs ∨ is_Some (CaptureSet.get key cs).

(** A host for the samples: no object is callable; primitives print as
    ["v"], the object [3] has no conversion to a primitive, the other
    objects print as plain objects do. *)
Definition plainHost : Host :=
  {| callable := fun _ => false;
     toString := fun v =>
       match v with
       | VObj 3 => None
       | VObj _ => Some "[object Object]"
       | _ => Some "v"
       end;
     instanceOf := fun _ _ => false;
     nameOf := fun _ => "C" |}.

(* ------------------------------------------------------------------ *)
(** ** Traversals that descend, and one that does not *)

(** The run of [p] from [s] descends below [n]: every pair it requests has
    a rank below [n], and the invocation that a request starts, when the
    pair is not in the cache, descends below the rank of its pair. The
    condition follows the run: it looks at the requests that are made, with
    the results that were returned, and at nothing else of the program. *)
Fixpoint Descends (rank : TrId -> Val -> nat) (env : TrId -> Transformer)
    (fuel : nat) (n : nat) (A : Type) : Prog A -> State -> Prop :=
  fix go (p : Prog A) (s : State) {struct p} : Prop :=
    match p with
    | Done _ => True
    | NewObject k => go (k (next_ref s)) (allocate s)
    | ProducerOf r k => go (k (productionContext s !! r)) s
    | Throw _ => True
    | Request i t k =>
        rank t i < n
        ∧ match cached t i s with
          | Some bar => go (k bar) (answer t i bar s)
          | None =>
              match fuel with
              | 0 => True
              | S fuel' =>
                  Descends rank env fuel' (rank t i) ValidationResult
                           (env t i transform) (enter t i s)
                  ∧ match run env fuel' (env t i transform) (enter t i s) with
                    | Ret result s1 => go (k result) (leave t i result s1)
                    | Thrown _ => True
                    | OutOfFuel => True
                    end
              end
          end
    end.

Arguments Descends rank env fuel n {A} p s.







(* ================================================================== *)
(** * Properties *)

(* ------------------------------------------------------------------ *)
(** ** [JsMap] and [JsSet] *)

Section JsMapFacts.
Context {K V : Type} `{EqDecision K}.
Implicit Types (k : K) (v : V) (m : JsMap.t K V).

Lemma JsMap_get_set_eq k v m : JsMap.get k (JsMap.set k v m) = Some v.
Proof.
  induction m as [|[k' v'] m IH]; simpl.
  - by rewrite decide_True.
  - destruct (decide (k = k')) as [->|Hne]; simpl.
    + by rewrite decide_True.
    + by rewrite decide_False.
Qed.

Lemma JsMap_get_set_ne k k' v m :
  k ≠ k' -> JsMap.get k (JsMap.set k' v m) = JsMap.get k m.
Proof.
  intros Hne. induction m as [|[k0 v0] m IH]; simpl.
  - by rewrite decide_False.
  - destruct (decide (k' = k0)) as [->|Hne0]; simpl.
    + by rewrite !decide_False.
    + destruct (decide (k = k0)); [done | apply IH].
Qed.

Lemma JsMap_get_delete_eq k m : JsMap.get k (JsMap.delete k m) = None.
Proof.
  induction m as [|[k' v'] m IH]; simpl; [done|].
  destruct (decide (k = k')); simpl; [done|]. by rewrite decide_False.
Qed.

Lemma JsMap_get_delete_ne k k' m :
  k ≠ k' -> JsMap.get k (JsMap.delete k' m) = JsMap.get k m.
Proof.
  intros Hne. induction m as [|[k0 v0] m IH]; simpl; [done|].
  destruct (decide (k' = k0)) as [->|Hne0]; simpl.
  - by rewrite decide_False.
  - destruct (decide (k = k0)); [done | apply IH].
Qed.

Lemma JsMap_has_get k m : JsMap.has k m = true <-> is_Some (JsMap.get k m).
Proof.
  unfold JsMap.has. by destruct (JsMap.get k m) as [v|]; split; try done.
Qed.

Lemma JsMap_has_false k m : JsMap.has k m = false <-> JsMap.get k m = None.
Proof. unfold JsMap.has. by destruct (JsMap.get k m). Qed.

End JsMapFacts.

Section JsSetFacts.
Context {K : Type} `{EqDecision K}.
Implicit Types (k : K) (s : JsSet.t K).

Lemma JsSet_has_elem k s : JsSet.has k s = true <-> k ∈ s.
Proof. unfold JsSet.has. by rewrite bool_decide_eq_true. Qed.

Lemma JsSet_has_not_elem k s : JsSet.has k s = false <-> k ∉ s.
Proof. unfold JsSet.has. by rewrite bool_decide_eq_false. Qed.

Lemma JsSet_elem_add k k' s : k ∈ JsSet.add k' s <-> k = k' ∨ k ∈ s.
Proof.
  unfold JsSet.add. destruct (JsSet.has k' s) eqn:Hhas.
  - apply JsSet_has_elem in Hhas. split; [by right | by intros [->|]].
  - rewrite elem_of_app, list_elem_of_singleton. tauto.
Qed.

Lemma JsSet_has_add_same k s : JsSet.has k (JsSet.add k s) = true.
Proof. apply JsSet_has_elem, JsSet_elem_add. by left. Qed.

Lemma JsSet_has_add_mono k k' s :
  JsSet.has k s = true -> JsSet.has k (JsSet.add k' s) = true.
Proof. rewrite !JsSet_has_elem, JsSet_elem_add. by right. Qed.

Lemma JsSet_add_NoDup k s : NoDup s -> NoDup (JsSet.add k s).
Proof.
  intros Hnd. unfold JsSet.add. destruct (JsSet.has k s) eqn:Hhas; [done|].
  apply JsSet_has_not_elem in Hhas. apply NoDup_app. split_and!; [done| |].
  - intros x Hx ->%list_elem_of_singleton. done.
  - apply NoDup_singleton.
Qed.

Lemma JsSet_fold_add_spec (l : list K) s :
  NoDup s ->
  NoDup (fold_left (fun s k => JsSet.add k s) l s) ∧
  ∀ k, k ∈ fold_left (fun s k => JsSet.add k s) l s <-> k ∈ s ∨ k ∈ l.
Proof.
  revert s. induction l as [|x l IH]; intros s Hnd; simpl.
  - split; [done|]. intros k. rewrite elem_of_nil. tauto.
  - destruct (IH (JsSet.add x s) (JsSet_add_NoDup x s Hnd)) as [Hnd' Hel].
    split; [done|]. intros k. rewrite Hel, JsSet_elem_add, elem_of_cons. tauto.
Qed.

(** [new Set(l)] holds exactly the values of [l], each once. *)
Lemma JsSet_of_list_spec (l : list K) :
  NoDup (JsSet.of_list l) ∧ ∀ k, k ∈ JsSet.of_list l <-> k ∈ l.
Proof.
  destruct (JsSet_fold_add_spec l JsSet.empty) as [Hnd Hel].
  { apply NoDup_nil_2. }
  split; [done|]. intros k. unfold JsSet.of_list. rewrite Hel.
  unfold JsSet.empty. rewrite elem_of_nil. tauto.
Qed.

End JsSetFacts.

(* ------------------------------------------------------------------ *)
(** ** Capture sets *)

Section CaptureSetFacts.
Implicit Types (key : CaptureKey) (io : Capture) (cs : CaptureSet.t).

Lemma CaptureSet_add_fresh key io cs :
  key ∉ CaptureSet.overloadedKeys cs -> CaptureSet.get key cs = None ->
  CaptureSet.get key (CaptureSet.add key io cs) = Some io.
Proof.
  intros Hno%JsSet_has_not_elem Hnd. unfold CaptureSet.add, CaptureSet.get in *.
  rewrite Hno. apply JsMap_has_false in Hnd. rewrite Hnd. simpl.
  apply JsMap_get_set_eq.
Qed.

Lemma CaptureSet_add_defined key io io' cs :
  key ∉ CaptureSet.overloadedKeys cs -> CaptureSet.get key cs = Some io ->
  Overloaded key (CaptureSet.add key io' cs).
Proof.
  intros Hno%JsSet_has_not_elem Hd. unfold Overloaded, CaptureSet.add, CaptureSet.get in *.
  rewrite Hno. assert (JsMap.has key (CaptureSet.definedKeys cs) = true) as ->.
  { apply JsMap_has_get. by eexists. }
  simpl. split.
  - apply JsSet_elem_add. by left.
  - apply JsMap_get_delete_eq.
Qed.

Lemma CaptureSet_add_other key key' io cs :
  key ≠ key' ->
  CaptureSet.get key (CaptureSet.add key' io cs) = CaptureSet.get key cs.
Proof.
  intros Hne. unfold CaptureSet.add, CaptureSet.get.
  destruct (JsSet.has key' _); [done|].
  destruct (JsMap.has key' _); simpl.
  - by apply JsMap_get_delete_ne.
  - by apply JsMap_get_set_ne.
Qed.








(** Copying overloaded keys never touches the defined entries. *)
Lemma get_fold_markOverloaded key (keys : list CaptureKey) cs :
  CaptureSet.get key (fold_left (fun s k => CaptureSet.markOverloaded k s) keys cs)
  = CaptureSet.get key cs.
Proof.
  revert cs. induction keys as [|k keys IH]; intros cs; simpl; [done|].
  by rewrite IH.
Qed.


Lemma JsMap_get_None_keys key (m : JsMap.t CaptureKey Capture) kv :
  JsMap.get key m = None -> kv ∈ m -> kv.1 ≠ key.
Proof.
  induction m as [|[k v] m IH]; simpl; intros Hget Hin.
  - by apply elem_of_nil in Hin.
  - destruct (decide (key = k)) as [->|Hne]; [done|].
    apply elem_of_cons in Hin as [->|Hin]; [simpl; congruence | by apply IH].
Qed.

Lemma get_fold_add_others key (kvs : list (CaptureKey * Capture)) cs :
  (∀ kv, kv ∈ kvs -> kv.1 ≠ key) ->
  CaptureSet.get key (fold_left (fun s kv => CaptureSet.add kv.1 kv.2 s) kvs cs)
  = CaptureSet.get key cs.
Proof.
  revert cs. induction kvs as [|kv kvs IH]; intros cs Hne; simpl; [done|].
  rewrite IH.
  - apply CaptureSet_add_other. intros ->. by apply (Hne kv); [left|].
  - intros kv' Hin. apply Hne. by right.
Qed.

(** A child that does not define [key] leaves its mapping as it was. *)
Lemma get_absorb_undefined key cs child :
  CaptureSet.get key child = None ->
  CaptureSet.get key (CaptureSet.absorb cs child) = CaptureSet.get key cs.
Proof.
  intros Hnone. unfold CaptureSet.absorb.
  rewrite get_fold_add_others, get_fold_markOverloaded; [done|].
  intros kv Hin. by eapply JsMap_get_None_keys.
Qed.

Lemma get_fold_absorb_undefined key cs (children : list CaptureSet.t) :
  Forall (fun c => CaptureSet.get key c = None) children ->
  CaptureSet.get key (fold_left CaptureSet.absorb children cs)
  = CaptureSet.get key cs.
Proof.
  revert cs. induction children as [|child children IH]; intros cs Hall; simpl;
    [done|].
  apply Forall_cons in Hall as [Hc Hall].
  by rewrite IH, get_absorb_undefined.
Qed.



End CaptureSetFacts.




(** The order of the children matters for a key that one child defines and
    another has overloaded: when the defining child comes first, the merged
    set keeps the mapping next to the overloaded mark. *)
Example CaptureSet_new_defined_then_overloaded :
  let io := mkCapture 1 (VNum 4) 0 in
  let defining := CaptureSet.add 7 io CaptureSet.init in
  let overloading := CaptureSet.add 7 io defining in
  CaptureSet.get 7 (CaptureSet.new [overloading; defining]) = None
  ∧ CaptureSet.get 7 (CaptureSet.new [defining; overloading]) = Some io
  ∧ 7 ∈ CaptureSet.overloadedKeys (CaptureSet.new [defining; overloading]).
Proof. split_and!; [done | done | by apply (bool_decide_unpack _)]. Qed.

(* ------------------------------------------------------------------ *)
(** ** The interpreter *)

(** Case analysis on the outcome of the run under scrutiny; the outcomes
    that do not return close the goal when it is an equation with [Ret]. *)
Tactic Notation "case_run" "as" simple_intropattern(a) simple_intropattern(s) :=
  match goal with
  | |- context [@run ?e ?f ?A ?p ?s0] =>
      destruct (@run e f A p s0) as [a s| |]; [|done..]
  end.

Section RunFacts.
Context (env : TrId -> Transformer).

Lemma run_Done fuel {A} (a : A) s : run env fuel (Done a) s = Ret a s.
Proof. by destruct fuel. Qed.

Lemma run_Throw fuel {A} msg s : run env fuel (@Throw A msg) s = Thrown msg.
Proof. by destruct fuel. Qed.

Lemma run_NewObject fuel {A} (k : ObjId -> Prog A) s :
  run env fuel (NewObject k) s = run env fuel (k (next_ref s)) (allocate s).
Proof. by destruct fuel. Qed.

Lemma run_ProducerOf fuel {A} r (k : option TrId -> Prog A) s :
  run env fuel (ProducerOf r k) s
  = run env fuel (k (productionContext s !! r)) s.
Proof. by destruct fuel. Qed.

Lemma run_Request_hit fuel {A} i t (k : ValidationResult -> Prog A) s bar :
  cached t i s = Some bar ->
  run env fuel (Request i t k) s = run env fuel (k bar) (answer t i bar s).
Proof. intros Hhit. destruct fuel; simpl; by rewrite Hhit. Qed.

Lemma run_Request_miss fuel {A} i t (k : ValidationResult -> Prog A) s :
  cached t i s = None ->
  run env (S fuel) (Request i t k) s
  = match run env fuel (env t i transform) (enter t i s) with
    | Ret result s1 => run env (S fuel) (k result) (leave t i result s1)
    | Thrown msg => Thrown msg
    | OutOfFuel => OutOfFuel
    end.
Proof. intros Hmiss. simpl. by rewrite Hmiss. Qed.

(** Sequencing: the interpreter runs [p], then the continuation. *)
Lemma run_bind fuel {A B} (p : Prog A) (f : A -> Prog B) s :
  run env fuel (p ≫= f) s
  = match run env fuel p s with
    | Ret a s' => run env fuel (f a) s'
    | Thrown msg => Thrown msg
    | OutOfFuel => OutOfFuel
    end.
Proof.
  unfold mbind, Prog_bind. revert s.
  induction p as [a|k IH|i t k IH|r k IH|msg]; intros s; simpl bindP.
  - by rewrite run_Done.
  - by rewrite !run_NewObject, IH.
  - destruct (cached t i s) as [bar|] eqn:Hc.
    + by rewrite !(run_Request_hit _ _ _ _ _ bar), IH.
    + destruct fuel as [|fuel]; [by simpl; rewrite Hc|].
      rewrite !run_Request_miss by done.
      destruct (run env fuel _ _); [apply IH | done | done].
  - by rewrite !run_ProducerOf, IH.
  - by rewrite !run_Throw.
Qed.

End RunFacts.

(* ------------------------------------------------------------------ *)
(** ** [crossProductCaptures] *)

Section CrossProduct.
Implicit Types (foos bars : list CaptureSet.t) (rest : list (list CaptureSet.t)).

(** The recursive case: two sibling lists or more. *)
Lemma crossProductCaptures_cons foos rest :
  rest ≠ [] ->
  crossProductCaptures (foos :: rest)
  = (bars ← crossProductCaptures rest;
     if Nat.eqb (length foos) 0 then Done bars
     else Done (flatMap foos (fun foo =>
                  map (fun bar => CaptureSet.new [foo; bar]) bars))).
Proof. by destruct rest. Qed.

(** With at least one sibling list the function returns; it has no effect. *)
Lemma crossProductCaptures_returns rest :
  rest ≠ [] -> ∃ bars, crossProductCaptures rest = Done bars.
Proof.
  induction rest as [|foos rest IH]; [done|]. intros _.
  destruct (decide (rest = [])) as [->|Hne]; [by eexists|].
  destruct (IH Hne) as [bars Hbars].
  rewrite crossProductCaptures_cons, Hbars by done. simpl.
  destruct (Nat.eqb _ _); by eexists.
Qed.

Lemma flatMap_nil_result {T U : Type} (arr : list T) :
  flatMap arr (fun _ => @nil U) = [].
Proof. unfold flatMap. induction arr as [|x arr IH]; simpl; [done | apply IH]. Qed.

Lemma crossProductCaptures_leading_empty rest :
  rest ≠ [] -> crossProductCaptures ([] :: rest) = crossProductCaptures rest.
Proof.
  intros Hne. destruct (crossProductCaptures_returns rest Hne) as [bars Hbars].
  by rewrite crossProductCaptures_cons, Hbars.
Qed.

Lemma crossProductCaptures_trailing_empty rest :
  rest ≠ [] -> Forall (fun foos => foos ≠ []) rest ->
  crossProductCaptures (rest ++ [[]]) = Done [].
Proof.
  induction rest as [|foos rest IH]; [done|]. intros _ Hall.
  apply Forall_cons in Hall as [Hfoos Hall]. simpl app.
  rewrite crossProductCaptures_cons by (by destruct rest).
  assert (crossProductCaptures (rest ++ [[]]) = Done []) as ->.
  { destruct (decide (rest = [])) as [->|Hne]; [done | by apply IH]. }
  simpl. destruct foos as [|foo foos]; [done|]. simpl Nat.eqb. cbv iota.
  f_equal. apply (flatMap_nil_result (foo :: foos)).
Qed.

(** An empty sibling list in any position but the last is skipped. *)
Lemma crossProductCaptures_skip_empty (pre : list (list CaptureSet.t)) rest :
  rest ≠ [] ->
  crossProductCaptures (pre ++ [] :: rest) = crossProductCaptures (pre ++ rest).
Proof.
  intros Hne. induction pre as [|foos pre IH]; simpl app.
  - by apply crossProductCaptures_leading_empty.
  - rewrite !crossProductCaptures_cons, IH; [done | |].
    + by destruct pre, rest.
    + by destruct pre.
Qed.

End CrossProduct.

(** C7. [crossProductCaptures] throws when it is given no sibling list: it
    is [throw] itself and no run of it returns. Given exactly one sibling
    list it returns that list, and nothing else happens. *)
Theorem crossProductCaptures_zero_or_one :
  (crossProductCaptures [] = Throw crossProduct_undefined
   ∧ ∀ env fuel s,
       run env fuel (crossProductCaptures []) s = Thrown crossProduct_undefined)
  ∧ (∀ only,
       crossProductCaptures [only] = Done only
       ∧ ∀ env fuel s, run env fuel (crossProductCaptures [only]) s = Ret only s).
Proof.
  split; [split|]; [done | |].
  - intros env fuel s. apply run_Throw.
  - intros only. split; [done|]. intros env fuel s. apply run_Done.
Qed.

(** C10. For two sibling lists or more of which the first is empty, the
    result is the cross product of the remaining lists: the empty list is
    skipped. When only the last sibling list is empty and non-empty lists
    come before it, the product is empty. *)
Theorem crossProductCaptures_empty_sibling :
  (∀ rest, rest ≠ [] ->
     crossProductCaptures ([] :: rest) = crossProductCaptures rest)
  ∧ (∀ siblings, siblings ≠ [] -> Forall (fun foos => foos ≠ []) siblings ->
     crossProductCaptures (siblings ++ [[]]) = Done []).
Proof.
  split.
  - apply crossProductCaptures_leading_empty.
  - apply crossProductCaptures_trailing_empty.
Qed.

Lemma crossProductCaptures_empty_sibling_witness :
  let world := CaptureSet.add 7 (mkCapture 1 (VNum 4) 0) CaptureSet.init in
  crossProductCaptures ([] :: [[world]; [world; CaptureSet.init]])
  = crossProductCaptures [[world]; [world; CaptureSet.init]]
  ∧ crossProductCaptures ([[world]; [world; CaptureSet.init]] ++ [[]]) = Done [].
Proof.
  destruct crossProductCaptures_empty_sibling as [Hleading Htrailing].
  intros world. split.
  - apply Hleading. discriminate.
  - apply Htrailing; [discriminate|]. repeat constructor; discriminate.
Defined.

(* ------------------------------------------------------------------ *)
(** ** Result constructors and [bind] *)

Section ResultAlgebra.
Context (env : TrId -> Transformer) (fuel : nat).

Lemma run_valid v w c s :
  run env fuel (valid v w c) s
  = Ret (Valid (next_ref s) v (toArray (default (Arr []) w))
               (default [CaptureSet.new []] c)) (allocate s).
Proof. unfold valid, new_Valid. by rewrite run_NewObject, run_Done. Qed.

Lemma run_invalid v e w c s :
  run env fuel (invalid v e w c) s
  = Ret (Invalid (next_ref s) v (toArray (default (Arr []) e))
                 (toArray (default (Arr []) w))
                 (default [CaptureSet.new []] c)) (allocate s).
Proof. unfold invalid, new_Invalid. by rewrite run_NewObject, run_Done. Qed.

Lemma run_failure e w s :
  run env fuel (failure e w) s
  = Ret (Failure (next_ref s) (toArray e) (toArray (default (Arr []) w)))
        (allocate s).
Proof. unfold failure, new_Failure. by rewrite run_NewObject, run_Done. Qed.

Lemma crossProductCaptures_two foos bars :
  crossProductCaptures [foos; bars] = Done (crossTwo foos bars).
Proof. unfold crossTwo. simpl. by destruct (Nat.eqb _ _). Qed.

(** [bind] on a [Failure] is the result itself: the binding does not occur
    in the program. *)
Lemma bind_Failure self f : isFailure self = true -> bind self f = Done self.
Proof. by destruct self. Qed.

(** [bind] on a [Valid] or [Invalid]: run the binding on the value, then
    allocate the combined result. *)
Lemma run_bind_nonFailure self f v s :
  value self = Some v ->
  run env fuel (bind self f) s
  = match run env fuel (f v) s with
    | Ret next s1 => Ret (bound self next (next_ref s1)) (allocate s1)
    | Thrown msg => Thrown msg
    | OutOfFuel => OutOfFuel
    end.
Proof.
  intros Hv. unfold bind.
  assert (∃ cs, valueAndCaptures self = Some (v, cs) ∧ captures self = Some cs)
    as (cs & -> & Hcs).
  { destruct self; simplify_eq/=; by eexists. }
  rewrite run_bind. destruct (run env fuel (f v) s) as [next s1| |]; [|done..].
  unfold bound. rewrite Hcs. simpl default.
  destruct (valueAndCaptures next) as [[v' cs']|].
  - rewrite crossProductCaptures_two. rewrite run_bind, run_Done.
    destruct (errors_or_empty self ++ errors_or_empty next) as [|e es] eqn:Hes.
    + simpl Nat.eqb. cbv iota. by rewrite run_valid.
    + simpl Nat.eqb. cbv iota. by rewrite run_invalid.
  - by rewrite run_failure.
Qed.

Lemma value_cases self :
  (isFailure self = true ∧ value self = None)
  ∨ (isFailure self = false ∧ ∃ v, value self = Some v).
Proof. destruct self; simpl; eauto. Qed.

Lemma bound_Invalid_errors self next ref :
  isInvalid (bound self next ref) = true ->
  errors_or_empty (bound self next ref) ≠ [].
Proof.
  unfold bound. destruct (valueAndCaptures next) as [[v cs]|]; [|done].
  by destruct (errors_or_empty self ++ errors_or_empty next).
Qed.

(** Whatever [bind] returns, an [Invalid] among it has an error. *)
Lemma bind_Invalid_errors self f s r s' :
  run env fuel (bind self f) s = Ret r s' ->
  isInvalid r = true -> errors_or_empty r ≠ [].
Proof.
  destruct (value_cases self) as [[Hf _]|[_ [v Hv]]].
  - rewrite bind_Failure, run_Done by done. intros [= <- <-].
    by destruct self.
  - rewrite (run_bind_nonFailure _ _ v) by done.
    destruct (run env fuel (f v) s) as [next s1| |]; [|done..].
    intros [= <- <-]. apply bound_Invalid_errors.
Qed.

End ResultAlgebra.

(* ------------------------------------------------------------------ *)
(** ** [mergeResults] *)

Section MergeResults.
Context (env : TrId -> Transformer) (fuel : nat).

Lemma JsMap_set_nonempty {K V : Type} `{EqDecision K} (k : K) (v : V) m :
  JsMap.set k v m ≠ [].
Proof. destruct m as [|[k' v'] m]; simpl; [done|]. by destruct (decide _). Qed.

Lemma MultiMap_add_nonempty {K V : Type} `{EqDecision K}
    (key : K) (values : list V) (m : MultiMap.t K V) :
  MultiMap.add key values m ≠ [].
Proof.
  unfold MultiMap.add, MultiMap.get.
  destruct (JsMap.get key m); apply JsMap_set_nonempty.
Qed.

(** The collecting loop only reads the state. It takes a value from every
    result before the first [Failure], and files at least one list of
    capture sets as soon as the first result is not a [Failure]. *)
Lemma run_collectUntilFailure results values all s :
  ∃ values' all',
    run env fuel (collectUntilFailure results values all) s
    = Ret (values', all') s
    ∧ (Forall (fun r => isFailure r = false) results ->
       length values' = length values + length results)
    ∧ (Exists (fun r => isFailure r = true) results ->
       length values' < length values + length results)
    ∧ (all ≠ [] -> all' ≠ [])
    ∧ (∀ r rest, results = r :: rest -> isFailure r = false -> all' ≠ []).
Proof.
  revert values all. induction results as [|r results IH]; intros values all.
  - exists values, all. simpl. rewrite run_Done.
    split; [done|]. split; [intros _; lia|]. split; [by intros ?%Exists_nil|].
    split; [done|]. by intros r rest.
  - destruct (valueAndCaptures r) as [[v cs]|] eqn:Hr.
    + assert (isFailure r = false) as Hnf by by destruct r.
      simpl. rewrite Hr, run_ProducerOf.
      destruct (IH (values ++ [v])
                  (MultiMap.add (productionContext s !! result_ref r) cs all))
        as (values' & all' & -> & Hall & Hex & Hne & _).
      exists values', all'. rewrite length_app in Hall, Hex. simpl in *.
      split; [done|]. split; [|split; [|split]].
      * intros [_ Hrest]%Forall_cons. rewrite Hall by done. lia.
      * intros [Hhd|Hrest]%Exists_cons; [congruence|].
        specialize (Hex Hrest). lia.
      * intros _. apply Hne, MultiMap_add_nonempty.
      * intros _ _ _ _. apply Hne, MultiMap_add_nonempty.
    + assert (isFailure r = true) as Hf by by destruct r.
      exists values, all. simpl. rewrite Hr, run_Done.
      split; [done|]. split; [|split; [|split]].
      * intros [Hhd _]%Forall_cons. congruence.
      * intros _. lia.
      * done.
      * intros r' rest [= <- <-]. congruence.
Qed.

(** No result at all: the cross product of no sibling list throws. *)
Lemma run_mergeResults_empty mapping s :
  run env fuel (mergeResults [] mapping) s = Thrown crossProduct_undefined.
Proof.
  unfold mergeResults. rewrite run_bind. simpl collectUntilFailure.
  rewrite run_Done. simpl. apply run_Throw.
Qed.

(** A [Failure] after a first result that is not one: the diagnostics of the
    whole sequence are returned in a new [Failure]; [mapping] does not run. *)
Lemma run_mergeResults_later_Failure r rest mapping s :
  isFailure r = false ->
  Exists (fun r' => isFailure r' = true) rest ->
  run env fuel (mergeResults (r :: rest) mapping) s
  = Ret (Failure (next_ref s)
                 (flatMap (r :: rest) errors_or_empty)
                 (flatMap (r :: rest) warnings))
        (allocate s).
Proof.
  intros Hr Hrest. unfold mergeResults.
  destruct (run_collectUntilFailure (r :: rest) [] MultiMap.empty s)
    as (values & all & Hrun & _ & Hlt & _ & Hne).
  unfold MultiMap.t in *. rewrite run_bind, Hrun. simpl fst. simpl snd.
  destruct (crossProductCaptures_returns (JsMap.values all)) as [bars Hbars].
  { specialize (Hne r rest eq_refl Hr). unfold JsMap.values. by destruct all. }
  rewrite run_bind, Hbars, run_Done.
  assert (Nat.eqb (length values) (length (r :: rest)) = false) as ->.
  { apply Nat.eqb_neq. specialize (Hlt (Exists_cons_tl _ Hrest)). simpl in *. lia. }
  by rewrite run_failure.
Qed.

(** Whatever [mergeResults] returns, an [Invalid] among it has an error. *)
Lemma mergeResults_Invalid_errors results mapping s r s' :
  run env fuel (mergeResults results mapping) s = Ret r s' ->
  isInvalid r = true -> errors_or_empty r ≠ [].
Proof.
  unfold mergeResults. rewrite run_bind. case_run as [values all] s1.
  rewrite run_bind. case_run as bars s2.
  simpl fst. destruct (Nat.eqb (length values) (length results)).
  - rewrite run_bind. case_run as value0 s3.
    destruct value0 as [ref v ws cs|ref v es ws cs|ref es ws].
    + destruct (Nat.eqb _ 0); apply bind_Invalid_errors.
    + destruct (Nat.eqb _ 0); apply bind_Invalid_errors.
    + rewrite run_failure. by intros [= <- <-].
  - rewrite run_failure. by intros [= <- <-].
Qed.

End MergeResults.

(* ------------------------------------------------------------------ *)
(** ** Claims about the result algebra *)

Lemma Invalid_errors_cons r :
  isInvalid r = true -> errors_or_empty r ≠ [] ->
  ∃ e es, errors r = Some (e :: es).
Proof. destruct r as [| ? ? [|e es] ? ?|]; try done. intros _ _. by eexists _, _. Qed.

(** C1 (as amended). Every [Failure] has no value and no captures, every
    [Invalid] has a value and every [Valid] has no errors; [valid], [invalid]
    and [failure] build a result of their class for every choice of
    arguments. The errors of an [Invalid] built by [invalid] are exactly the
    errors passed (none when the argument is omitted or the empty list). An
    [Invalid] returned by [bind] or by [mergeResults] has at least one
    error. *)
Theorem result_kind_invariants :
  (∀ r,
     (isFailure r = true -> value r = None ∧ captures r = None)
     ∧ (isInvalid r = true -> ∃ v, value r = Some v)
     ∧ (isValid r = true -> errors r = None ∧ errors_or_empty r = []))
  ∧ (∀ env fuel s v w c,
       ∃ r, run env fuel (valid v w c) s = Ret r (allocate s)
            ∧ isValid r = true)
  ∧ (∀ env fuel s e w,
       ∃ r, run env fuel (failure e w) s = Ret r (allocate s)
            ∧ isFailure r = true)
  ∧ (∀ env fuel s v e w c,
       ∃ r, run env fuel (invalid v e w c) s = Ret r (allocate s)
            ∧ isInvalid r = true
            ∧ errors r = Some (toArray (default (Arr []) e)))
  ∧ (∀ env fuel self f s r s',
       run env fuel (bind self f) s = Ret r s' ->
       isInvalid r = true -> ∃ e es, errors r = Some (e :: es))
  ∧ (∀ env fuel results mapping s r s',
       run env fuel (mergeResults results mapping) s = Ret r s' ->
       isInvalid r = true -> ∃ e es, errors r = Some (e :: es)).
Proof.
  split_and!.
  - intros r. destruct r; simpl; split_and!; try done. intros _. by eexists.
  - intros. eexists. by rewrite run_valid.
  - intros. eexists. by rewrite run_failure.
  - intros. eexists. by rewrite run_invalid.
  - intros env fuel self f s r s' Hrun Hinv.
    apply Invalid_errors_cons; [done|]. by eapply bind_Invalid_errors.
  - intros env fuel results mapping s r s' Hrun Hinv.
    apply Invalid_errors_cons; [done|]. by eapply mergeResults_Invalid_errors.
Qed.

Lemma result_kind_invariants_witness :
  let self := Valid 0 (VNum 1) [] [CaptureSet.init] in
  let f := fun _ : Val => invalid (VNum 1) (Some (Str "too small")) None None in
  let mapping := fun _ : list Val =>
    invalid (VNum 1) (Some (Str "too small")) None None in
  (∃ r s', run noTransformers 0 (bind self f) (stateAt 1) = Ret r s'
           ∧ isInvalid r = true ∧ ∃ e es, errors r = Some (e :: es))
  ∧ (∃ r s', run noTransformers 0 (mergeResults [self] mapping) (stateAt 1)
             = Ret r s'
             ∧ isInvalid r = true ∧ ∃ e es, errors r = Some (e :: es)).
Proof.
  destruct result_kind_invariants as (_ & _ & _ & _ & Hbind & Hmerge).
  intros self f mapping. split.
  - eexists _, _. split; [reflexivity|]. split; [reflexivity|].
    eapply (Hbind noTransformers 0 self f (stateAt 1)); reflexivity.
  - eexists _, _. split; [reflexivity|]. split; [reflexivity|].
    eapply (Hmerge noTransformers 0 [self] mapping (stateAt 1)); reflexivity.
Defined.

(** C1 (as stated) fails: [invalid] called without errors, as its default
    allows, builds an [Invalid] that carries no error. *)
Lemma invalid_default_has_no_error :
  ∃ r, run noTransformers 0 (invalid (VNum 5) None None None) initialState
       = Ret r (allocate initialState)
       ∧ isInvalid r = true
       ∧ errors r = Some []
       ∧ ¬ (∃ e es, errors r = Some (e :: es)).
Proof.
  eexists. split_and!; [reflexivity | done | done |].
  simpl. by intros (e & es & [=]).
Qed.

(** C2. [bind] on a [Failure] is that very result and the binding does not
    take part. Otherwise the binding runs on the value and yields [next];
    warnings and errors are those of the receiver followed by those of
    [next]; a [Failure] [next] gives a [Failure] with the combined
    diagnostics; otherwise the result has the value of [next] and the crossed
    captures, and is [Invalid] with the combined errors when there are any and
    [Valid] when there are none. *)
Theorem bind_sequences env fuel (r : ValidationResult)
    (f : Val -> Prog ValidationResult) s :
  (isFailure r = true ->
     (∀ g, bind r g = Done r) ∧ run env fuel (bind r f) s = Ret r s)
  ∧ (∀ v next s1,
       value r = Some v -> run env fuel (f v) s = Ret next s1 ->
       let ws := warnings r ++ warnings next in
       let es := errors_or_empty r ++ errors_or_empty next in
       (isFailure next = true ->
          run env fuel (bind r f) s
          = Ret (Failure (next_ref s1) es ws) (allocate s1))
       ∧ (isFailure next = false ->
          ∃ v' cs cs' crossed,
            value next = Some v' ∧ captures r = Some cs
            ∧ captures next = Some cs'
            ∧ crossProductCaptures [cs; cs'] = Done crossed
            ∧ (es ≠ [] ->
               run env fuel (bind r f) s
               = Ret (Invalid (next_ref s1) v' es ws crossed) (allocate s1))
            ∧ (es = [] ->
               run env fuel (bind r f) s
               = Ret (Valid (next_ref s1) v' ws crossed) (allocate s1)))).
Proof.
  split.
  - intros Hf. split; [intros g; by apply bind_Failure|].
    by rewrite bind_Failure, run_Done.
  - intros v next s1 Hv Hnext ws es.
    pose proof (run_bind_nonFailure env fuel r f v s Hv) as Hrun.
    rewrite Hnext in Hrun. rewrite Hrun. unfold bound. fold ws es. split.
    + intros Hf. by destruct next.
    + intros Hnf.
      assert (∃ cs, captures r = Some cs) as [cs Hcs] by (destruct r; by eauto).
      destruct next as [ref v' ws' cs'|ref v' es' ws' cs'|]; [| |done].
      * exists v', cs, cs', (crossTwo cs cs'). rewrite Hcs.
        split_and!; try done; [apply crossProductCaptures_two| |].
        -- intros Hne. simpl. by destruct es.
        -- intros ->. done.
      * exists v', cs, cs', (crossTwo cs cs'). rewrite Hcs.
        split_and!; try done; [apply crossProductCaptures_two| |].
        -- intros Hne. simpl. by destruct es.
        -- intros ->. done.
Qed.

Lemma bind_sequences_witness :
  let self := Invalid 0 (VNum 1) ["odd"] ["slow"] [CaptureSet.init] in
  let failed := Failure 0 ["bad shape"] ["slow"] in
  let f := fun v => failure (Str "not a string") (Some (Str "deprecated")) in
  let g := fun v => valid v (Some (Str "deprecated")) None in
  run noTransformers 0 (bind failed f) (stateAt 1) = Ret failed (stateAt 1)
  ∧ run noTransformers 0 (bind self f) (stateAt 1)
    = Ret (Failure 2 ["odd"; "not a string"] ["slow"; "deprecated"])
          (stateAt 3)
  ∧ run noTransformers 0 (bind self g) (stateAt 1)
    = Ret (Invalid 2 (VNum 1) ["odd"] ["slow"; "deprecated"]
             [CaptureSet.new [CaptureSet.init; CaptureSet.new []]])
          (stateAt 3).
Proof.
  intros self failed f g. split_and!.
  - apply (bind_sequences noTransformers 0 failed f (stateAt 1)). reflexivity.
  - apply (proj2 (bind_sequences noTransformers 0 self f (stateAt 1))
             (VNum 1) (Failure 1 ["not a string"] ["deprecated"])
             (stateAt 2)); reflexivity.
  - destruct (proj2 (bind_sequences noTransformers 0 self g (stateAt 1))
               (VNum 1) (Valid 1 (VNum 1) ["deprecated"] [CaptureSet.new []])
               (stateAt 2) eq_refl eq_refl) as [_ Hok].
    destruct (Hok eq_refl) as (v' & cs & cs' & crossed & Hv & Hcs & Hcs' & Hx & Hinv & _).
    simplify_eq/=. by apply Hinv.
Defined.

(** C3 (the case the code misses). When the first result is a [Failure],
    [mergeResults] does not return a [Failure]: it throws, whatever the
    results after it and whatever the mapping. *)
Theorem mergeResults_leading_Failure_throws env fuel ref es ws rest mapping s :
  run env fuel (mergeResults (Failure ref es ws :: rest) mapping) s
  = Thrown crossProduct_undefined.
Proof.
  unfold mergeResults. rewrite run_bind.
  (* the loop stops at once: no value, no list of capture sets *)
  simpl collectUntilFailure. rewrite run_Done. simpl.
  (* crossProductCaptures [] *)
  apply run_Throw.
Qed.

(* ------------------------------------------------------------------ *)
(** ** [get] and [getCanonical] *)

Section Canonical.
Implicit Types (key : CaptureKey) (r : ValidationResult) (c : Capture).

Lemma NoDup_all_equal {A : Type} (l : list A) (a : A) :
  NoDup l -> (∀ x, x ∈ l -> x = a) -> a ∈ l -> l = [a].
Proof.
  intros Hnd Hall Hin. destruct l as [|x [|y l]].
  - by apply elem_of_nil in Hin.
  - f_equal. apply Hall. by left.
  - apply NoDup_cons in Hnd as [Hx _]. exfalso. apply Hx.
    rewrite (Hall x), <- (Hall y); [by left | by right; left | by left].
Qed.

(** The set built by [getCanonical]: the distinct captures found. *)
Lemma rawValues_spec key r :
  let rawValues := JsSet.of_list (filter just (get key r)) in
  NoDup rawValues ∧ ∀ x, x ∈ rawValues <-> ∃ c, x = Some c ∧ Some c ∈ get key r.
Proof.
  intros rawValues.
  destruct (JsSet_of_list_spec (filter just (get key r))) as [Hnd Hel].
  split; [done|]. intros x. unfold rawValues. rewrite Hel, list_elem_of_filter.
  unfold just. split.
  - intros [[c ->] Hin]. by exists c.
  - intros (c & -> & Hin). by split; [eexists|].
Qed.

Lemma getCanonical_Some key r c :
  getCanonical key r = Some c <-> OnlyCapture key r c.
Proof.
  destruct (rawValues_spec key r) as [Hnd Hel]. unfold getCanonical, OnlyCapture.
  set (rawValues := JsSet.of_list (filter just (get key r))) in *.
  split.
  - intros Hcanon.
    destruct rawValues as [|x [|y rest]] eqn:Hraw; simpl in Hcanon; try done.
    subst x. split.
    + destruct (proj1 (Hel (Some c))) as (c' & [= <-] & Hin); [by left | done].
    + intros c' Hin. assert (Some c' ∈ [Some c]) as Hc'.
      { apply Hel. by exists c'. }
      apply list_elem_of_singleton in Hc'. congruence.
  - intros [Hin Hall].
    assert (rawValues = [Some c]) as ->; [|done].
    apply NoDup_all_equal; [done| |].
    + intros x (c' & -> & Hc')%Hel. f_equal. by apply Hall.
    + apply Hel. by exists c.
Qed.

Lemma getCanonical_None key r :
  getCanonical key r = None <-> ¬ ∃ c, OnlyCapture key r c.
Proof.
  split.
  - intros Hnone [c Hc%getCanonical_Some]. congruence.
  - intros Hno. destruct (getCanonical key r) as [c|] eqn:Hc; [|done].
    exfalso. apply Hno. exists c. by apply getCanonical_Some.
Qed.

(** Every world holds the same capture. *)
Lemma getCanonical_agreeing_worlds key r c :
  get key r ≠ [] -> (∀ slot, slot ∈ get key r -> slot = Some c) ->
  getCanonical key r = Some c.
Proof.
  intros Hne Hall. apply getCanonical_Some. split.
  - destruct (get key r) as [|slot slots] eqn:Hget; [done|].
    rewrite <- (Hall slot); by left.
  - intros c' Hin. apply Hall in Hin. congruence.
Qed.

(** No world resolves the key. *)
Lemma getCanonical_unresolved key r :
  (∀ slot, slot ∈ get key r -> slot = None) -> getCanonical key r = None.
Proof.
  intros Hall. apply getCanonical_None. intros [c [Hin _]].
  apply Hall in Hin. done.
Qed.

Lemma singleCapture_get key io :
  CaptureSet.get key (singleCapture key io) = Some io
  ∧ key ∉ CaptureSet.overloadedKeys (singleCapture key io).
Proof.
  unfold singleCapture. split.
  - apply CaptureSet_add_fresh; [apply not_elem_of_nil | done].
  - unfold CaptureSet.add. simpl. apply not_elem_of_nil.
Qed.

(** Two captures of one key merged into one capture set. *)
Lemma Overloaded_two_captures key io io' :
  Overloaded key (CaptureSet.new [singleCapture key io; singleCapture key io']).
Proof.
  change (CaptureSet.new [singleCapture key io; singleCapture key io'])
    with (CaptureSet.add key io' (singleCapture key io)).
  eapply CaptureSet_add_defined; apply singleCapture_get.
Qed.

(** Two capture records with the same content are two values: the set is
    a set of objects. *)
Example getCanonical_distinct_records :
  let r := Valid 9 (VNum 4) []
             [singleCapture 7 (mkCapture 1 (VNum 4) 0);
              singleCapture 7 (mkCapture 2 (VNum 4) 0)] in
  get 7 r = [Some (mkCapture 1 (VNum 4) 0); Some (mkCapture 2 (VNum 4) 0)]
  ∧ getCanonical 7 r = None.
Proof. by split. Qed.

End Canonical.

(** C6. [getCanonical] returns a capture exactly when the lookups of the key
    that are not absent hold that capture and no other, and returns absent
    when there is no such capture (none found, or two distinct ones). Two
    captures of the key merged into one capture set leave the key without a
    canonical capture; a key that resolves to the same capture in every
    capture set of the result has that capture as canonical. *)
Theorem getCanonical_unambiguous key r :
  (∀ c, getCanonical key r = Some c <-> OnlyCapture key r c)
  ∧ (getCanonical key r = None <-> ¬ ∃ c, OnlyCapture key r c)
  ∧ (∀ ref v ws io io',
       getCanonical key
         (Valid ref v ws
            [CaptureSet.new [singleCapture key io; singleCapture key io']])
       = None)
  ∧ (∀ c, get key r ≠ [] -> (∀ slot, slot ∈ get key r -> slot = Some c) ->
       getCanonical key r = Some c).
Proof.
  split_and!.
  - intros c. apply getCanonical_Some.
  - apply getCanonical_None.
  - intros ref v ws io io'. apply getCanonical_unresolved.
    intros slot Hin. simpl in Hin. apply list_elem_of_singleton in Hin as ->.
    apply Overloaded_two_captures.
  - intros c. apply getCanonical_agreeing_worlds.
Qed.

Lemma getCanonical_unambiguous_witness :
  let io := mkCapture 1 (VNum 4) 0 in
  let r := Valid 9 (VNum 4) [] [singleCapture 7 io; singleCapture 7 io] in
  getCanonical 7 r = Some io.
Proof.
  intros io r.
  apply (proj2 (proj2 (proj2 (getCanonical_unambiguous 7 r)))).
  - discriminate.
  - intros slot Hin. vm_compute in Hin.
    apply elem_of_cons in Hin as [->|Hin]; [reflexivity|].
    apply list_elem_of_singleton in Hin as ->. reflexivity.
Defined.

(* ------------------------------------------------------------------ *)
(** ** [capture] *)

(** C9. When the captured transformer yields a [Failure] on the input,
    [capture] returns that very [Failure]; the only effect is the allocation
    of the capture record, which is dropped: the result has no slot for the
    key and no canonical capture. *)
Theorem capture_of_Failure env fuel key t input (traverse : Transform)
    s output s1 :
  run env fuel (traverse input t) s = Ret output s1 ->
  isFailure output = true ->
  run env fuel (capture key t input traverse) s = Ret output (allocate s1)
  ∧ get key output = []
  ∧ getCanonical key output = None.
Proof.
  intros Hrun Hf. split_and!.
  - unfold capture. rewrite run_bind, Hrun, run_bind, run_NewObject, run_Done.
    by rewrite bind_Failure, run_Done.
  - by destruct output.
  - by destruct output.
Qed.

Lemma capture_of_Failure_witness :
  let output := Failure 10 ["rejected"] ["looked at it"] in
  run sampleEnv 1 (capture 7 1 (VNum 4) transform) (stateAt 10)
  = Ret output (allocate (leave 1 (VNum 4) output
                            (allocate (enter 1 (VNum 4) (stateAt 10)))))
  ∧ get 7 output = []
  ∧ getCanonical 7 output = None.
Proof.
  intros output.
  apply (capture_of_Failure sampleEnv 1 7 1 (VNum 4) transform (stateAt 10));
    reflexivity.
Defined.

(* ------------------------------------------------------------------ *)
(** ** Memoization *)

Section Memoization.
Context (env : TrId -> Transformer) (t : TrId) (i : Val).

Lemma cached_memoize_eq result s : cached t i (memoize t i result s) = Some result.
Proof.
  unfold cached, memoize. simpl. rewrite lookup_insert_eq. simpl.
  apply JsMap_get_set_eq.
Qed.

Lemma cached_memoize_ne t' i' result s :
  (t', i') ≠ (t, i) -> cached t i (memoize t' i' result s) = cached t i s.
Proof.
  intros Hne. unfold cached, memoize. simpl.
  destruct (decide (t' = t)) as [->|Ht].
  - rewrite lookup_insert_eq. simpl.
    rewrite JsMap_get_set_ne by congruence.
    by destruct (cache s !! t).
  - by rewrite lookup_insert_ne.
Qed.

Lemma cached_leave_eq result s : cached t i (leave t i result s) = Some result.
Proof. apply cached_memoize_eq. Qed.

Lemma cached_leave_ne t' i' result s :
  (t', i') ≠ (t, i) -> cached t i (leave t' i' result s) = cached t i s.
Proof. apply cached_memoize_ne. Qed.

Lemma cached_enter t' i' s : cached t i (enter t' i' s) = cached t i s.
Proof.
  unfold cached, enter. simpl. destruct (cache s !! t') eqn:Ht'; [done|].
  destruct (decide (t' = t)) as [->|Hne].
  - by rewrite lookup_insert_eq, Ht'.
  - by rewrite lookup_insert_ne.
Qed.

Lemma invocations_enter_ne t' i' s :
  (t', i') ≠ (t, i) -> invocations t i (enter t' i' s) = invocations t i s.
Proof.
  intros Hne. unfold invocations, enter. simpl.
  rewrite filter_app, length_app, filter_cons_False by congruence.
  rewrite filter_nil. simpl. lia.
Qed.

Lemma invocations_answer t' i' result s :
  invocations t i (answer t' i' result s) = invocations t i s.
Proof.
  unfold invocations, answer. simpl.
  rewrite filter_app, length_app, filter_cons_False by done.
  rewrite filter_nil. simpl. lia.
Qed.

(** A request leaves its answer in the cache. *)
Lemma transform_stores fuel s r s1 :
  run env fuel (transform i t) s = Ret r s1 -> cached t i s1 = Some r.
Proof.
  unfold transform. destruct (cached t i s) as [bar|] eqn:Hc.
  - rewrite (run_Request_hit _ _ _ _ _ _ bar), run_Done by done.
    by intros [= <- <-].
  - destruct fuel as [|fuel]; [by simpl; rewrite Hc|].
    rewrite run_Request_miss by done. case_run as result s'.
    rewrite run_Done. intros [= <- <-]. apply cached_leave_eq.
Qed.

(** A cached answer makes the request return it at once: no fuel is used,
    the closure of [t] plays no part, and nothing but the ghost log changes. *)
Lemma transform_hit env' fuel s r :
  cached t i s = Some r ->
  run env' fuel (transform i t) s = Ret r (answer t i r s).
Proof.
  intros Hc. unfold transform.
  by rewrite (run_Request_hit _ _ _ _ _ _ r), run_Done.
Qed.

(** No program overwrites a cached answer or invokes [t] on [i] again. *)
Lemma run_keeps_cached r fuel :
  ∀ (A : Type) (p : Prog A) a s s',
    cached t i s = Some r -> run env fuel p s = Ret a s' ->
    cached t i s' = Some r ∧ invocations t i s' = invocations t i s.
Proof.
  induction fuel as [|fuel IHfuel]; intros A p;
    induction p as [a0|k IH|i' t' k IH|r' k IH|msg]; intros a s s' Hc.
  all: try (rewrite run_Done; by intros [= <- <-]).
  all: try (rewrite run_Throw; done).
  all: try (rewrite run_NewObject; intros Hrun;
            by apply IH in Hrun).
  all: try (rewrite run_ProducerOf; by apply IH).
  - destruct (cached t' i' s) as [bar|] eqn:Hc'.
    + rewrite (run_Request_hit _ _ _ _ _ _ bar) by done. intros Hk.
      apply IH in Hk as [Hc2 Hn2]; [|done].
      by rewrite Hn2, invocations_answer.
    + simpl. by rewrite Hc'.
  - destruct (cached t' i' s) as [bar|] eqn:Hc'.
    + rewrite (run_Request_hit _ _ _ _ _ _ bar) by done. intros Hk.
      apply IH in Hk as [Hc2 Hn2]; [|done].
      by rewrite Hn2, invocations_answer.
    + assert ((t', i') ≠ (t, i)) as Hne by (intros [= -> ->]; congruence).
      rewrite run_Request_miss by done.
      destruct (run env fuel (env t' i' transform) (enter t' i' s))
        as [result s1| |] eqn:Hbody; [|done..].
      apply IHfuel in Hbody as [Hc1 Hn1]; [|by rewrite cached_enter].
      intros Hk. apply IH in Hk as [Hc2 Hn2].
      * split; [done|]. rewrite Hn2. unfold leave.
        rewrite invocations_answer. unfold invocations in *. simpl.
        rewrite Hn1. by apply invocations_enter_ne.
      * by rewrite cached_leave_ne.
Qed.

Lemma TraversalStep_keeps_cached r s s' :
  TraversalStep env t i s s' -> cached t i s = Some r ->
  cached t i s' = Some r ∧ invocations t i s' = invocations t i s.
Proof.
  intros Hstep Hc. destruct Hstep as [fuel A p a s s' Hrun|t' i' s Hne|t' i' res s Hne].
  - by eapply run_keeps_cached.
  - by rewrite cached_enter, invocations_enter_ne.
  - rewrite cached_leave_ne by done. split; [done|]. unfold leave.
    by rewrite invocations_answer.
Qed.

Lemma rtc_TraversalStep_keeps_cached r s s' :
  rtc (TraversalStep env t i) s s' -> cached t i s = Some r ->
  cached t i s' = Some r ∧ invocations t i s' = invocations t i s.
Proof.
  induction 1 as [s|s1 s2 s3 Hstep _ IH]; intros Hc; [done|].
  destruct (TraversalStep_keeps_cached r _ _ Hstep Hc) as [Hc2 Hn2].
  destruct (IH Hc2) as [Hc3 Hn3]. split; [done | congruence].
Qed.

(** Once a request for [(t, i)] has returned [r], every later request for
    the pair returns [r] without invoking [t]. *)
Lemma transform_again fuel s r s1 s2 :
  run env fuel (transform i t) s = Ret r s1 ->
  rtc (TraversalStep env t i) s1 s2 ->
  (∀ env' fuel', run env' fuel' (transform i t) s2 = Ret r (answer t i r s2))
  ∧ invocations t i s2 = invocations t i s1.
Proof.
  intros Hfirst Hlater. apply transform_stores in Hfirst.
  destruct (rtc_TraversalStep_keeps_cached r s1 s2 Hlater Hfirst) as [Hc Hn].
  split; [|done]. intros env' fuel'. by apply transform_hit.
Qed.

End Memoization.

(* ------------------------------------------------------------------ *)
(** ** Schemas without cycles *)

Section RequestsBelow.
Context (rank : TrId -> Val -> nat) (n : nat).

Lemma below_mbind {A B} (p : Prog A) (f : A -> Prog B) :
  RequestsBelow rank n p -> (∀ a, RequestsBelow rank n (f a)) ->
  RequestsBelow rank n (p ≫= f).
Proof.
  intros Hp Hf. unfold mbind, Prog_bind.
  induction Hp as [a|k _ IH|i t k Ht _ IH|r k _ IH|msg]; simpl.
  - apply Hf.
  - by constructor.
  - by constructor.
  - by constructor.
  - constructor.
Qed.

Lemma below_valid v w c : RequestsBelow rank n (valid v w c).
Proof. repeat constructor. Qed.

Lemma below_invalid v e w c : RequestsBelow rank n (invalid v e w c).
Proof. repeat constructor. Qed.

Lemma below_failure e w : RequestsBelow rank n (failure e w).
Proof. repeat constructor. Qed.

Lemma below_crossProductCaptures captures :
  RequestsBelow rank n (crossProductCaptures captures).
Proof.
  induction captures as [|foos rest IH]; [constructor|].
  destruct rest as [|bars rest]; [constructor|].
  rewrite crossProductCaptures_cons by done.
  apply below_mbind; [done|]. intros. destruct (Nat.eqb _ _); constructor.
Qed.

Lemma below_bind self f :
  (∀ v, RequestsBelow rank n (f v)) -> RequestsBelow rank n (bind self f).
Proof.
  intros Hf. unfold bind.
  destruct (valueAndCaptures self) as [[v cs]|]; [|constructor].
  apply below_mbind; [done|]. intros result.
  destruct (valueAndCaptures result) as [[v' cs']|]; [|apply below_failure].
  apply below_mbind; [apply below_crossProductCaptures|]. intros crossed.
  destruct (Nat.eqb _ _); [apply below_valid | apply below_invalid].
Qed.

Lemma below_collectUntilFailure results values all :
  RequestsBelow rank n (collectUntilFailure results values all).
Proof.
  revert values all. induction results as [|r results IH]; intros values all;
    simpl; [constructor|].
  destruct (valueAndCaptures r) as [[v cs]|]; by constructor.
Qed.

Lemma below_mergeResults results mapping :
  (∀ values, RequestsBelow rank n (mapping values)) ->
  RequestsBelow rank n (mergeResults results mapping).
Proof.
  intros Hm. unfold mergeResults.
  apply below_mbind; [apply below_collectUntilFailure|]. intros collected.
  apply below_mbind; [apply below_crossProductCaptures|]. intros crossed.
  destruct (Nat.eqb _ _); [|apply below_failure].
  apply below_mbind; [done|]. intros value0.
  destruct value0; try apply below_failure;
    destruct (Nat.eqb _ _); apply below_bind; intros;
    first [apply below_valid | apply below_invalid].
Qed.

Lemma below_mapP {T U} (f : T -> Prog U) arr :
  (∀ x, x ∈ arr -> RequestsBelow rank n (f x)) ->
  RequestsBelow rank n (mapP f arr).
Proof.
  induction arr as [|x arr IH]; intros Hf; simpl; [constructor|].
  apply below_mbind; [apply Hf; by left|]. intros y.
  apply below_mbind; [apply IH; intros; apply Hf; by right|]. intros ys.
  constructor.
Qed.

Lemma below_reduce {T R} (f : R -> T -> Prog R) arr init :
  (∀ acc x, x ∈ arr -> RequestsBelow rank n (f acc x)) ->
  RequestsBelow rank n (reduce f arr init).
Proof.
  revert init. induction arr as [|x arr IH]; intros init Hf; simpl;
    [constructor|].
  apply below_mbind; [apply Hf; by left|]. intros acc.
  apply IH. intros. apply Hf. by right.
Qed.

Lemma below_transform i t :
  rank t i < n -> RequestsBelow rank n (transform i t).
Proof. intros Ht. constructor; [done|]. constructor. Qed.

Lemma below_capture key t input :
  rank t input < n -> RequestsBelow rank n (capture key t input transform).
Proof.
  intros Ht. unfold capture.
  apply below_mbind; [by apply below_transform|]. intros output.
  apply below_mbind; [repeat constructor|]. intros io.
  apply below_bind. intros. apply below_valid.
Qed.

Lemma below_chain first rest input :
  rank first input < n -> Forall (fun t => ∀ v, rank t v < n) rest ->
  RequestsBelow rank n (chain first rest input transform).
Proof.
  intros Hfirst Hrest. unfold chain.
  apply below_mbind; [by apply below_transform|]. intros result.
  apply below_reduce. intros acc t Ht. apply below_bind. intros v.
  apply below_transform. rewrite Forall_forall in Hrest. by apply Hrest.
Qed.

Lemma below_intersection transformers input :
  Forall (fun t => rank t input < n) transformers ->
  RequestsBelow rank n (intersection transformers input transform).
Proof.
  intros Hts. unfold intersection.
  apply below_mbind.
  - apply below_mapP. intros t Ht. apply below_transform.
    rewrite Forall_forall in Hts. by apply Hts.
  - intros results. apply below_mergeResults. intros. apply below_valid.
Qed.

Lemma below_unionLoop transformers input firstInvalid firstFailure :
  Forall (fun t => rank t input < n) transformers ->
  RequestsBelow rank n
    (unionLoop transform input transformers firstInvalid firstFailure).
Proof.
  revert firstInvalid firstFailure.
  induction transformers as [|t ts IH]; intros firstInvalid firstFailure Hts;
    simpl.
  - destruct firstInvalid, firstFailure; repeat constructor.
  - apply Forall_cons in Hts as [Ht Hts].
    constructor; [done|]. intros result.
    destruct (isValid result); [constructor|].
    destruct (isInvalid result); by apply IH.
Qed.

Lemma below_union transformers input :
  Forall (fun t => rank t input < n) transformers ->
  RequestsBelow rank n (union transformers input transform).
Proof. apply below_unionLoop. Qed.

End RequestsBelow.

Lemma Stratified_sampleEnv : Stratified sampleRank sampleEnv.
Proof.
  intros t i. do 7 (try destruct t as [|t]); simpl.
  - unfold isFour. destruct (decide _); [apply below_valid | apply below_invalid].
  - apply below_failure.
  - apply below_capture. simpl. lia.
  - apply below_capture. simpl. lia.
  - apply below_chain; [simpl; lia|]. repeat constructor.
  - apply below_intersection. repeat constructor.
  - apply below_intersection. repeat constructor.
  - apply below_failure.
Qed.

Section History.
Context (t : TrId) (i : Val).

Lemma history_allocate s : history t i (allocate s) = history t i s.
Proof. done. Qed.

Lemma history_memoize t' i' result s :
  history t i (memoize t' i' result s) = history t i s.
Proof. done. Qed.

Lemma history_enter_eq s :
  history t i (enter t i s) = history t i s ++ [Invoked t i].
Proof.
  unfold history, enter. simpl.
  by rewrite filter_app, filter_cons_True, filter_nil.
Qed.

Lemma history_enter_ne t' i' s :
  (t', i') ≠ (t, i) -> history t i (enter t' i' s) = history t i s.
Proof.
  intros Hne. unfold history, enter. simpl.
  by rewrite filter_app, filter_cons_False, filter_nil, app_nil_r.
Qed.

Lemma history_answer_eq result s :
  history t i (answer t i result s)
  = history t i s ++ [Answered t i (result_ref result)].
Proof.
  unfold history, answer. simpl.
  by rewrite filter_app, filter_cons_True, filter_nil.
Qed.

Lemma history_answer_ne t' i' result s :
  (t', i') ≠ (t, i) -> history t i (answer t' i' result s) = history t i s.
Proof.
  intros Hne. unfold history, answer. simpl.
  by rewrite filter_app, filter_cons_False, filter_nil, app_nil_r.
Qed.

Lemma history_leave_eq result s :
  history t i (leave t i result s)
  = history t i s ++ [Answered t i (result_ref result)].
Proof. unfold leave. by rewrite history_answer_eq. Qed.

Lemma history_leave_ne t' i' result s :
  (t', i') ≠ (t, i) -> history t i (leave t' i' result s) = history t i s.
Proof. intros Hne. unfold leave. by rewrite history_answer_ne. Qed.

Lemma invocations_history s :
  invocations t i s
  = length (filter (fun e => e = Invoked t i) (history t i s)).
Proof.
  unfold invocations, history. rewrite list_filter_filter_l; [done|].
  by intros e ->.
Qed.



Lemma Memoized_ext s s' :
  cached t i s' = cached t i s -> history t i s' = history t i s ->
  Memoized t i s -> Memoized t i s'.
Proof. unfold Memoized. by intros -> ->. Qed.

(** A request answered from the cache extends an ordered log. *)
Lemma Memoized_answer bar s :
  cached t i s = Some bar -> Memoized t i s ->
  Memoized t i (answer t i bar s).
Proof.
  unfold Memoized. intros Hc. change (cached t i (answer t i bar s))
    with (cached t i s). rewrite Hc. intros (answered & Hh & Hall).
  exists (answered ++ [Answered t i (result_ref bar)]).
  rewrite history_answer_eq, Hh. split; [done|].
  apply Forall_app. split; [done|]. by repeat constructor.
Qed.


End History.

Section Acyclic.
Context (rank : TrId -> Val -> nat) (env : TrId -> Transformer).
Hypothesis env_stratified : Stratified rank env.

(** A program does not touch the pairs of a rank it cannot request. *)
Lemma run_frame fuel :
  ∀ n (A : Type) (p : Prog A) a s s',
    RequestsBelow rank n p -> run env fuel p s = Ret a s' ->
    ∀ t i, n ≤ rank t i ->
      cached t i s' = cached t i s ∧ history t i s' = history t i s.
Proof.
  induction fuel as [|fuel IHfuel]; intros n A p a s s' Hbelow; revert a s s';
    induction Hbelow as [a0|k _ IH|i0 t0 k Ht0 _ IH|r k _ IH|msg];
    intros a s s'.
  all: try (rewrite run_Done; by intros [= <- <-]).
  all: try (rewrite run_Throw; done).
  all: try (rewrite run_NewObject; intros Hrun t i Hn;
            by destruct (IH _ _ _ _ Hrun t i Hn)).
  all: try (rewrite run_ProducerOf; by apply IH).
  - destruct (cached t0 i0 s) as [bar|] eqn:Hc; [|by simpl; rewrite Hc].
    rewrite (run_Request_hit _ _ _ _ _ _ bar) by done. intros Hrun t i Hn.
    destruct (IH _ _ _ _ Hrun t i Hn) as [-> ->].
    split; [done|]. apply history_answer_ne. intros [= -> ->]. lia.
  - destruct (cached t0 i0 s) as [bar|] eqn:Hc.
    + rewrite (run_Request_hit _ _ _ _ _ _ bar) by done. intros Hrun t i Hn.
      destruct (IH _ _ _ _ Hrun t i Hn) as [-> ->].
      split; [done|]. apply history_answer_ne. intros [= -> ->]. lia.
    + rewrite run_Request_miss by done.
      destruct (run env fuel (env t0 i0 transform) (enter t0 i0 s))
        as [result s1| |] eqn:Hbody; [|done..].
      intros Hrun t i Hn.
      assert ((t0, i0) ≠ (t, i)) as Hne by (intros [= -> ->]; lia).
      destruct (IH _ _ _ _ Hrun t i Hn) as [-> ->].
      destruct (IHfuel _ _ _ _ _ _ (env_stratified t0 i0) Hbody t i)
        as [Hc1 Hh1]; [lia|].
      rewrite cached_leave_ne, history_leave_ne, Hc1, Hh1 by done.
      by rewrite cached_enter, history_enter_ne.
Qed.

(** The logs of the pairs a program can request stay in order. *)
Lemma run_Memoized fuel :
  ∀ n (A : Type) (p : Prog A) a s s',
    RequestsBelow rank n p -> run env fuel p s = Ret a s' ->
    (∀ t i, rank t i < n -> Memoized t i s) ->
    ∀ t i, rank t i < n -> Memoized t i s'.
Proof.
  induction fuel as [|fuel IHfuel]; intros n A p a s s' Hbelow; revert a s s';
    induction Hbelow as [a0|k _ IH|i0 t0 k Ht0 _ IH|r k _ IH|msg];
    intros a s s'.
  all: try (rewrite run_Done; by intros [= <- <-]).
  all: try (rewrite run_Throw; done).
  all: try (rewrite run_NewObject; intros Hrun Hs;
            by apply (IH _ _ _ _ Hrun)).
  all: try (rewrite run_ProducerOf; by apply IH).
  - destruct (cached t0 i0 s) as [bar|] eqn:Hc; [|by simpl; rewrite Hc].
    rewrite (run_Request_hit _ _ _ _ _ _ bar) by done. intros Hrun Hs.
    apply (IH _ _ _ _ Hrun). intros t i Hn.
    destruct (decide ((t0, i0) = (t, i))) as [[= <- <-]|Hne].
    + by apply Memoized_answer, Hs.
    + apply (Memoized_ext _ _ s); [done | by apply history_answer_ne | by apply Hs].
  - destruct (cached t0 i0 s) as [bar|] eqn:Hc.
    + rewrite (run_Request_hit _ _ _ _ _ _ bar) by done. intros Hrun Hs.
      apply (IH _ _ _ _ Hrun). intros t i Hn.
      destruct (decide ((t0, i0) = (t, i))) as [[= <- <-]|Hne].
      * by apply Memoized_answer, Hs.
      * apply (Memoized_ext _ _ s);
          [done | by apply history_answer_ne | by apply Hs].
    + rewrite run_Request_miss by done.
      destruct (run env fuel (env t0 i0 transform) (enter t0 i0 s))
        as [result s1| |] eqn:Hbody; [|done..].
      intros Hrun Hs. apply (IH _ _ _ _ Hrun). intros t i Hn.
      pose proof (run_frame _ _ _ _ _ _ _ (env_stratified t0 i0) Hbody)
        as Hframe.
      destruct (decide ((t0, i0) = (t, i))) as [[= <- <-]|Hne].
      * destruct (Hframe t0 i0) as [Hc1 Hh1]; [lia|].
        pose proof (Hs t0 i0 Ht0) as Hm. unfold Memoized in Hm |- *.
        rewrite Hc in Hm. rewrite cached_leave_eq, history_leave_eq, Hh1.
        rewrite history_enter_eq, Hm. simpl.
        exists [Answered t0 i0 (result_ref result)].
        split; [done|]. by repeat constructor.
      * destruct (decide (rank t i < rank t0 i0)) as [Hlt|Hge].
        -- apply (Memoized_ext _ _ s1);
             [by apply cached_leave_ne | by apply history_leave_ne |].
           apply (IHfuel _ _ _ _ _ _ (env_stratified t0 i0) Hbody); [|done].
           intros t' i' Hn'.
           apply (Memoized_ext _ _ s);
             [apply cached_enter | | apply Hs; lia].
           apply history_enter_ne. intros [= -> ->]. lia.
        -- destruct (Hframe t i) as [Hc1 Hh1]; [lia|].
           apply (Memoized_ext _ _ s); [| |by apply Hs].
           ++ by rewrite cached_leave_ne, Hc1, cached_enter.
           ++ by rewrite history_leave_ne, Hh1, history_enter_ne.
Qed.

(** Enough fuel: a program whose requests are below [n] does not run out of
    fuel [n]. *)
Lemma run_enough_fuel fuel :
  ∀ n (A : Type) (p : Prog A) s,
    RequestsBelow rank n p -> n ≤ fuel -> run env fuel p s ≠ OutOfFuel.
Proof.
  induction fuel as [|fuel IHfuel]; intros n A p s Hbelow; revert s;
    induction Hbelow as [a0|k _ IH|i0 t0 k Ht0 _ IH|r k _ IH|msg];
    intros s Hn.
  all: try (by rewrite run_Done).
  all: try (by rewrite run_Throw).
  all: try (rewrite run_NewObject; by apply IH).
  all: try (rewrite run_ProducerOf; by apply IH).
  - lia.
  - destruct (cached t0 i0 s) as [bar|] eqn:Hc.
    + rewrite (run_Request_hit _ _ _ _ _ _ bar) by done. by apply IH.
    + rewrite run_Request_miss by done.
      destruct (run env fuel (env t0 i0 transform) (enter t0 i0 s))
        as [result s1| |] eqn:Hbody; [by apply IH | done |].
      exfalso. revert Hbody. apply (IHfuel (rank t0 i0)); [done | lia].
Qed.

(** A top-level call with fuel for the rank of its root does not run out. *)
Lemma transform_enough_fuel fuel input root s0 :
  rank root input ≤ fuel ->
  __transform__ env fuel input root s0 ≠ OutOfFuel.
Proof.
  intros Hfuel. unfold __transform__.
  by apply (run_enough_fuel _ (rank root input)).
Qed.

(** In a traversal that returns, every pair is in order at the end. *)
Lemma transform_Memoized fuel input root s0 r s :
  __transform__ env fuel input root s0 = Ret r s -> ∀ t i, Memoized t i s.
Proof.
  unfold __transform__. intros Hrun t i.
  assert (Hfresh : ∀ t' i', Memoized t' i' (freshTraversal s0)) by done.
  destruct (decide (rank t i < rank root input)) as [Hlt|Hge].
  - by apply (run_Memoized _ _ _ _ _ _ _ (env_stratified root input) Hrun).
  - destruct (run_frame _ _ _ _ _ _ _ (env_stratified root input) Hrun t i)
      as [Hc Hh]; [lia|].
    by apply (Memoized_ext _ _ (freshTraversal s0)).
Qed.

(** The root is invoked by [__transform__] itself and never again. *)
Lemma transform_root_not_requested fuel input root s0 r s :
  __transform__ env fuel input root s0 = Ret r s ->
  invocations root input s = 0.
Proof.
  unfold __transform__. intros Hrun.
  destruct (run_frame _ _ _ _ _ _ _ (env_stratified root input) Hrun
              root input) as [_ Hh]; [lia|].
  by rewrite invocations_history, Hh.
Qed.

End Acyclic.

Section Descending.
Context (rank : TrId -> Val -> nat) (env : TrId -> Transformer).

Lemma Descends_Done fuel n {A} (a : A) s :
  Descends rank env fuel n (Done a) s.
Proof. by destruct fuel. Qed.

Lemma Descends_Throw fuel n {A} msg s :
  Descends rank env fuel n (@Throw A msg) s.
Proof. by destruct fuel. Qed.

Lemma Descends_NewObject fuel n {A} (k : ObjId -> Prog A) s :
  Descends rank env fuel n (NewObject k) s
  = Descends rank env fuel n (k (next_ref s)) (allocate s).
Proof. by destruct fuel. Qed.

Lemma Descends_ProducerOf fuel n {A} r (k : option TrId -> Prog A) s :
  Descends rank env fuel n (ProducerOf r k) s
  = Descends rank env fuel n (k (productionContext s !! r)) s.
Proof. by destruct fuel. Qed.

Lemma Descends_Request_hit fuel n {A} i t (k : ValidationResult -> Prog A)
    s bar :
  cached t i s = Some bar ->
  Descends rank env fuel n (Request i t k) s
  = (rank t i < n ∧ Descends rank env fuel n (k bar) (answer t i bar s)).
Proof. intros Hhit. destruct fuel; simpl; by rewrite Hhit. Qed.

Lemma Descends_Request_miss fuel n {A} i t (k : ValidationResult -> Prog A) s :
  cached t i s = None ->
  Descends rank env (S fuel) n (Request i t k) s
  = (rank t i < n
     ∧ Descends rank env fuel (rank t i) (env t i transform) (enter t i s)
     ∧ match run env fuel (env t i transform) (enter t i s) with
       | Ret result s1 =>
           Descends rank env (S fuel) n (k result) (leave t i result s1)
       | Thrown _ => True
       | OutOfFuel => True
       end).
Proof. intros Hmiss. simpl. by rewrite Hmiss. Qed.




(** A schema in which every evaluation can only request pairs of lower
    rank, whatever its requests return, descends in every run. *)
Lemma Stratified_Descends fuel :
  Stratified rank env ->
  ∀ n (A : Type) (p : Prog A) s,
    RequestsBelow rank n p -> Descends rank env fuel n p s.
Proof.
  intros Hstrat. induction fuel as [|fuel IHfuel]; intros n A p s Hbelow;
    revert s;
    induction Hbelow as [a0|k _ IH|i0 t0 k Ht0 _ IH|r k _ IH|msg]; intros s.
  all: try apply Descends_Done.
  all: try apply Descends_Throw.
  all: try (rewrite Descends_NewObject; by apply IH).
  all: try (rewrite Descends_ProducerOf; by apply IH).
  - destruct (cached t0 i0 s) as [bar|] eqn:Hc.
    + rewrite (Descends_Request_hit _ _ _ _ _ _ bar) by done.
      split; [done | apply IH].
    + simpl. by rewrite Hc.
  - destruct (cached t0 i0 s) as [bar|] eqn:Hc.
    + rewrite (Descends_Request_hit _ _ _ _ _ _ bar) by done.
      split; [done | apply IH].
    + rewrite Descends_Request_miss by done. split_and!; [done| |].
      * apply IHfuel, Hstrat.
      * destruct (run env fuel _ _); [apply IH | done | done].
Qed.

End Descending.




(** A schema in which every evaluation can only request pairs of lower
    rank, whatever its requests return, meets the condition of the amended
    claim: the traversals of the sample schema descend. *)
Example sampleEnv_descends fuel n input t s :
  sampleRank t input < n ->
  Descends sampleRank sampleEnv fuel n (transform input t) s.
Proof.
  intros Hn. apply Stratified_Descends; [apply Stratified_sampleEnv|].
  by apply below_transform.
Qed.


(** A recursive schema is without cycles when the recursion is on a smaller
    input; the traversal then needs fuel for the depth of the recursion. *)
Example Stratified_countdown :
  Stratified countdownRank (fun t => countdown t)
  ∧ ∃ r s, __transform__ (fun t => countdown t) 3 (VNum 3) 0 initialState
           = Ret r s
           ∧ warnings r = ["counted"; "counted"; "counted"]
           ∧ log s = [Invoked 0 (VNum 2); Invoked 0 (VNum 1); Invoked 0 (VNum 0);
                      Answered 0 (VNum 0) 0; Answered 0 (VNum 1) 2;
                      Answered 0 (VNum 2) 4].
Proof.
  split.
  - intros t i. unfold countdown. destruct i as [| | |n| |]; try apply below_failure.
    destruct (decide (0 < n)%Z); [|apply below_valid].
    apply below_mbind.
    + apply below_transform. simpl. lia.
    + intros below. apply below_bind. intros. apply below_valid.
  - by eexists _, _.
Qed.

(** Without the cache the second invocation would build a new object: the
    closure allocates its result on every run. *)
Example isFour_allocates_each_time :
  run sampleEnv 0 (isFour (VNum 4) transform) (stateAt 10)
  = Ret (Valid 10 (VNum 4) [] [CaptureSet.new []]) (stateAt 11)
  ∧ run sampleEnv 0 (isFour (VNum 4) transform) (stateAt 11)
    = Ret (Valid 11 (VNum 4) [] [CaptureSet.new []]) (stateAt 12).
Proof. by split. Qed.

(* ------------------------------------------------------------------ *)
(** ** [chain] and the order of diagnostics *)

Lemma andThen_assoc o1 o2 o3 :
  andThen (andThen o1 o2) o3 = andThen o1 (andThen o2 o3).
Proof.
  unfold andThen. destruct o1 as [[v1|] w1 e1], o2 as [[v2|] w2 e2]; simpl;
    try done.
  by rewrite !app_assoc.
Qed.

Lemma andThen_value o1 o2 v :
  o_value (andThen o1 o2) = Some v ->
  (∃ v1, o_value o1 = Some v1) ∧ o_value o2 = Some v.
Proof.
  unfold andThen. destruct (o_value o1) as [v1|] eqn:Hv1; simpl.
  - intros Hv. by split; [exists v1|].
  - congruence.
Qed.

Lemma outline_bound self next ref v :
  value self = Some v ->
  outline (bound self next ref) = andThen (outline self) (outline next).
Proof.
  intros Hv. unfold bound, andThen, outline. simpl. rewrite Hv.
  destruct next as [ref' v' ws' cs'|ref' v' es' ws' cs'|ref' es' ws']; simpl;
    try done;
    by destruct (errors_or_empty self ++ errors_or_empty _).
Qed.

Section ChainGrouping.
Context (env : TrId -> Transformer) (fuel : nat) (Inv : State -> Prop).
Context (traverse : Transform).
Hypothesis Inv_allocate : ∀ s, Inv s -> Inv (allocate s).

(** [bind] appends the outline of the binding to that of the receiver. *)
Lemma Yields_bind r f o :
  (∀ v, value r = Some v -> Yields env fuel Inv (f v) o) ->
  ∀ s, Inv s ->
    ∃ r' s', run env fuel (bind r f) s = Ret r' s'
             ∧ outline r' = andThen (outline r) o ∧ Inv s'.
Proof.
  intros Hf s Hs. destruct (value_cases r) as [[Hfail Hnone]|[_ [v Hv]]].
  - exists r, s. rewrite bind_Failure, run_Done by done.
    split; [done|]. split; [|done]. unfold andThen, outline. simpl.
    by rewrite Hnone.
  - destruct (Hf v Hv s Hs) as (next & s1 & Hrun & Ho & Hs1).
    exists (bound r next (next_ref s1)), (allocate s1).
    rewrite (run_bind_nonFailure _ _ _ _ v), Hrun by done.
    split; [done|]. split; [|by apply Inv_allocate].
    by rewrite (outline_bound _ _ _ v), Ho.
Qed.

Lemma Yields_chain_two x y input ox oy :
  Yields env fuel Inv (traverse input x) ox ->
  (∀ v, o_value ox = Some v -> Yields env fuel Inv (traverse v y) oy) ->
  Yields env fuel Inv (chain x [y] input traverse) (andThen ox oy).
Proof.
  intros Hx Hy s Hs. destruct (Hx s Hs) as (rx & s1 & Hrun & Ho & Hs1).
  destruct (Yields_bind rx (fun v => traverse v y) oy) with (s := s1)
    as (rxy & s2 & Hrun2 & Ho2 & Hs2); [|done|].
  { intros v Hv. apply Hy. by rewrite <- Ho. }
  exists rxy, s2. unfold chain. rewrite run_bind, Hrun. simpl reduce.
  rewrite run_bind, Hrun2, run_Done. by rewrite Ho2, Ho.
Qed.

Lemma Yields_chain_three x y z input ox oy oz :
  Yields env fuel Inv (traverse input x) ox ->
  (∀ v, o_value ox = Some v -> Yields env fuel Inv (traverse v y) oy) ->
  (∀ v, o_value oy = Some v -> Yields env fuel Inv (traverse v z) oz) ->
  Yields env fuel Inv (chain x [y; z] input traverse) (andThen (andThen ox oy) oz).
Proof.
  intros Hx Hy Hz s Hs. destruct (Hx s Hs) as (rx & s1 & Hrun & Ho & Hs1).
  destruct (Yields_bind rx (fun v => traverse v y) oy) with (s := s1)
    as (rxy & s2 & Hrun2 & Ho2 & Hs2); [|done|].
  { intros v Hv. apply Hy. by rewrite <- Ho. }
  destruct (Yields_bind rxy (fun v => traverse v z) oz) with (s := s2)
    as (rxyz & s3 & Hrun3 & Ho3 & Hs3); [|done|].
  { intros v Hv. apply Hz.
    assert (o_value (outline rxy) = Some v) as Hv' by done.
    rewrite Ho2 in Hv'. by apply andThen_value in Hv' as [_ Hv']. }
  exists rxyz, s3. unfold chain. rewrite run_bind, Hrun. simpl reduce.
  rewrite run_bind, Hrun2, run_bind, Hrun3, run_Done.
  by rewrite Ho3, Ho2, Ho.
Qed.

End ChainGrouping.

(* ------------------------------------------------------------------ *)
(** ** The groupings of a chain under the engine's traversal function *)

Section EngineChain.
Context (env : TrId -> Transformer).

(** More fuel does not change a run that returns. *)
Lemma run_more_fuel fuel :
  ∀ (A : Type) (p : Prog A) a s s',
    run env fuel p s = Ret a s' -> run env (S fuel) p s = Ret a s'.
Proof.
  induction fuel as [|fuel IHfuel]; intros A p;
    induction p as [a0|k IH|i t k IH|r k IH|msg]; intros a s s'.
  all: try (rewrite !run_Done; done).
  all: try (rewrite !run_Throw; done).
  all: try (rewrite !run_NewObject; by apply IH).
  all: try (rewrite !run_ProducerOf; by apply IH).
  - destruct (cached t i s) as [bar|] eqn:Hc.
    + rewrite !(run_Request_hit _ _ _ _ _ _ bar) by done. by apply IH.
    + simpl. by rewrite Hc.
  - destruct (cached t i s) as [bar|] eqn:Hc.
    + rewrite !(run_Request_hit _ _ _ _ _ _ bar) by done. by apply IH.
    + rewrite !run_Request_miss by done.
      destruct (run env fuel (env t i transform) (enter t i s))
        as [result s1| |] eqn:Hbody; [|done..].
      apply IHfuel in Hbody. rewrite Hbody. by apply IH.
Qed.

Lemma Yields_more_fuel fuel Inv p o :
  Yields env fuel Inv p o -> Yields env (S fuel) Inv p o.
Proof.
  intros Hy s Hs. destruct (Hy s Hs) as (r & s' & Hrun & Ho & Hs').
  exists r, s'. by split; [apply run_more_fuel|].
Qed.

Context (expect : TrId -> Val -> option Outline).

Lemma Consistent_allocate s : Consistent expect s -> Consistent expect (allocate s).
Proof. done. Qed.

Lemma Consistent_enter t i s :
  Consistent expect s -> Consistent expect (enter t i s).
Proof. intros Hs t' i' r o. rewrite cached_enter. apply Hs. Qed.

Lemma Consistent_answer t i result s :
  Consistent expect s -> Consistent expect (answer t i result s).
Proof. done. Qed.

Lemma Consistent_leave t i result o s :
  expect t i = Some o -> outline result = o ->
  Consistent expect s -> Consistent expect (leave t i result s).
Proof.
  intros Hexp Ho Hs t' i' r o'.
  destruct (decide ((t, i) = (t', i'))) as [[= <- <-]|Hne].
  - rewrite cached_leave_eq. intros [= <-] Ho'. congruence.
  - rewrite cached_leave_ne by done. apply Hs.
Qed.

(** A request for a listed pair yields what the closure yields: from the
    cache by consistency, or by invoking the closure and storing its result. *)
Lemma Yields_transform fuel t i o :
  expect t i = Some o ->
  Yields env fuel (Consistent expect) (env t i transform) o ->
  Yields env (S fuel) (Consistent expect) (transform i t) o.
Proof.
  intros Hexp Hbody s Hs. unfold transform.
  destruct (cached t i s) as [bar|] eqn:Hc.
  - exists bar, (answer t i bar s).
    rewrite (run_Request_hit _ _ _ _ _ _ bar), run_Done by done.
    split; [done|]. split; [by eapply Hs | done].
  - destruct (Hbody (enter t i s)) as (r & s' & Hrun & Ho & Hs');
      [by apply Consistent_enter|].
    exists r, (leave t i r s').
    rewrite run_Request_miss, Hrun, run_Done by done.
    split; [done|]. split; [done|]. by eapply Consistent_leave.
Qed.

(** With the engine's [transform], the composites are requests like any
    other: it is enough that the stages yield their outlines from every
    state whose cache is consistent with the table, and that the table lists
    the composites with the outline of their chain. *)
Lemma chain_grouping_engine fuel (a b c ab bc : TrId) (input : Val)
    (oa ob oc : Outline) :
  env ab = chain a [b] -> env bc = chain b [c] ->
  expect ab input = Some (andThen oa ob) ->
  (∀ v, o_value oa = Some v -> expect bc v = Some (andThen ob oc)) ->
  Yields env fuel (Consistent expect) (transform input a) oa ->
  (∀ v, o_value oa = Some v ->
        Yields env fuel (Consistent expect) (transform v b) ob) ->
  (∀ v, o_value ob = Some v ->
        Yields env fuel (Consistent expect) (transform v c) oc) ->
  let o := andThen (andThen oa ob) oc in
  Yields env (S fuel) (Consistent expect) (chain a [b; c] input transform) o
  ∧ Yields env (S fuel) (Consistent expect) (chain ab [c] input transform) o
  ∧ Yields env (S fuel) (Consistent expect) (chain a [bc] input transform) o.
Proof.
  intros Hab Hbc Heab Hebc Ha Hb Hc o.
  assert (Halloc : ∀ s, Consistent expect s -> Consistent expect (allocate s))
    by done.
  split_and!.
  - apply Yields_more_fuel, Yields_chain_three; done.
  - apply Yields_chain_two; [done| |].
    + apply Yields_transform; [done|]. rewrite Hab.
      by apply Yields_chain_two.
    + intros v Hv. apply andThen_value in Hv as [_ Hv].
      by apply Yields_more_fuel, Hc.
  - unfold o. rewrite andThen_assoc. apply Yields_chain_two; [done| |].
    + by apply Yields_more_fuel.
    + intros v Hv. apply Yields_transform; [by apply Hebc|]. rewrite Hbc.
      apply Yields_chain_two; [done| by apply Hb | done].
Qed.

End EngineChain.

(** C8. Let the stages [a], [b], [c] yield the outlines [oa], [ob], [oc]
    (each on the value of the stage before it), and let a request for the
    composite [ab] or [bc] yield what the chain of its two stages yields.
    Then [chain(a, b, c)], [chain(ab, c)] and [chain(a, bc)] all return, with
    the same warnings and the same errors: those of the stages in stage
    order, up to the first stage without a value. *)
Theorem chain_grouping env fuel (Inv : State -> Prop) (traverse : Transform)
    (a b c ab bc : TrId) (input : Val) (oa ob oc : Outline) :
  (∀ s, Inv s -> Inv (allocate s)) ->
  Yields env fuel Inv (traverse input a) oa ->
  (∀ v, o_value oa = Some v -> Yields env fuel Inv (traverse v b) ob) ->
  (∀ v, o_value ob = Some v -> Yields env fuel Inv (traverse v c) oc) ->
  (Yields env fuel Inv (chain a [b] input traverse) (andThen oa ob) ->
   Yields env fuel Inv (traverse input ab) (andThen oa ob)) ->
  (∀ v, o_value oa = Some v ->
        Yields env fuel Inv (chain b [c] v traverse) (andThen ob oc) ->
        Yields env fuel Inv (traverse v bc) (andThen ob oc)) ->
  let o := andThen (andThen oa ob) oc in
  Yields env fuel Inv (chain a [b; c] input traverse) o
  ∧ Yields env fuel Inv (chain ab [c] input traverse) o
  ∧ Yields env fuel Inv (chain a [bc] input traverse) o
  ∧ (∀ va vb, o_value oa = Some va -> o_value ob = Some vb ->
       o_warnings o = o_warnings oa ++ o_warnings ob ++ o_warnings oc
       ∧ o_errors o = o_errors oa ++ o_errors ob ++ o_errors oc).
Proof.
  intros Halloc Ha Hb Hc Hab Hbc o. split_and!.
  - by apply Yields_chain_three.
  - apply Yields_chain_two; [done| |].
    + apply Hab. by apply Yields_chain_two.
    + intros v Hv. apply Hc. by apply andThen_value in Hv as [_ Hv].
  - unfold o. rewrite andThen_assoc. apply Yields_chain_two; [done.. |].
    intros v Hv. apply Hbc; [done|]. apply Yields_chain_two; [done| |done].
    by apply Hb.
  - intros va vb Hva Hvb. unfold o, andThen. rewrite Hva. simpl.
    rewrite Hvb. simpl. by rewrite <- !app_assoc.
Qed.

Lemma chain_grouping_witness :
  let o := {| o_value := Some (VStr "x");
              o_warnings := ["a: trimmed"; "b: slow"; "c: first"; "c: second"];
              o_errors := ["b: too long"] |} in
  Yields stagesEnv 2 (Consistent stagesExpect)
         (chain 0 [1; 2] (VStr "x") transform) o
  ∧ Yields stagesEnv 2 (Consistent stagesExpect)
           (chain 3 [2] (VStr "x") transform) o
  ∧ Yields stagesEnv 2 (Consistent stagesExpect)
           (chain 0 [4] (VStr "x") transform) o.
Proof.
  intros o.
  assert (Ha : ∀ fuel, Yields stagesEnv (S fuel) (Consistent stagesExpect)
                         (transform (VStr "x") 0) outlineA).
  { intros fuel. apply Yields_transform; [reflexivity|]. intros s Hs.
    eexists _, _. split; [apply run_valid|].
    split; [reflexivity | exact Hs]. }
  assert (Hb : ∀ fuel, Yields stagesEnv (S fuel) (Consistent stagesExpect)
                         (transform (VStr "x") 1) outlineB).
  { intros fuel. apply Yields_transform; [reflexivity|]. intros s Hs.
    eexists _, _. split; [apply run_invalid|].
    split; [reflexivity | exact Hs]. }
  assert (Hc : ∀ fuel, Yields stagesEnv (S fuel) (Consistent stagesExpect)
                         (transform (VStr "x") 2) outlineC).
  { intros fuel. apply Yields_transform; [reflexivity|]. intros s Hs.
    eexists _, _. split; [apply run_valid|].
    split; [reflexivity | exact Hs]. }
  destruct (chain_grouping stagesEnv 2 (Consistent stagesExpect) transform
              0 1 2 3 4 (VStr "x") outlineA outlineB outlineC)
    as (Hflat & Hleft & Hright & _).
  - intros s Hs. exact Hs.
  - apply Ha.
  - intros v [= <-]. apply Hb.
  - intros v [= <-]. apply Hc.
  - intros _. apply Yields_transform; [reflexivity|].
    apply (Yields_chain_two stagesEnv 1 (Consistent stagesExpect) transform).
    + intros s Hs. exact Hs.
    + apply Ha.
    + intros v [= <-]. apply Hb.
  - intros v [= <-] _. apply Yields_transform; [reflexivity|].
    apply (Yields_chain_two stagesEnv 1 (Consistent stagesExpect) transform).
    + intros s Hs. exact Hs.
    + apply Hb.
    + intros v [= <-]. apply Hc.
  - split; [exact Hflat|]. split; [exact Hleft | exact Hright].
Defined.

(** The same three groupings, run by the engine with its cache. *)
Example chain_groupings_through_engine :
  let o := {| o_value := Some (VStr "x");
              o_warnings := ["a: trimmed"; "b: slow"; "c: first"; "c: second"];
              o_errors := ["b: too long"] |} in
  ∃ flat left right s1 s2 s3,
    __transform__ stagesEnv 2 (VStr "x") 5 initialState = Ret flat s1
    ∧ __transform__ stagesEnv 2 (VStr "x") 6 initialState = Ret left s2
    ∧ __transform__ stagesEnv 2 (VStr "x") 7 initialState = Ret right s3
    ∧ outline flat = o ∧ outline left = o ∧ outline right = o.
Proof. intros o. eexists _, _, _, _, _, _. by split_and!. Qed.

(** Captures through the engine: the same captured transformer chained with
    itself on one input offers one capture twice to one merge and loses the
    canonical capture; as two members of an intersection the two results
    come from one producer, stay two worlds, and agree. A capture of a
    failing transformer leaves nothing to look up. *)
Example captures_through_engine :
  let io := mkCapture 1 (VNum 4) 0 in
  ∃ chained both failed s1 s2 s3,
    __transform__ sampleEnv 3 (VNum 4) 4 initialState = Ret chained s1
    ∧ __transform__ sampleEnv 3 (VNum 4) 5 initialState = Ret both s2
    ∧ __transform__ sampleEnv 3 (VNum 4) 3 initialState = Ret failed s3
    ∧ get 7 chained = [None] ∧ getCanonical 7 chained = None
    ∧ get 7 both = [Some io; Some io] ∧ getCanonical 7 both = Some io
    ∧ isFailure failed = true ∧ get 7 failed = [].
Proof. intros io. eexists _, _, _, _, _, _. by split_and!. Qed.

(** [intersection] is [mergeResults] on the results of its members: with a
    failing member in first position it throws, with the same member later
    it returns a [Failure] with the diagnostics of all members. *)
Example mergeResults_through_engine :
  let env := fun t : TrId =>
    match t with
    | 0 => isFour | 1 => rejectAll
    | 2 => intersection [1; 0] | _ => intersection [0; 1; 0]
    end in
  __transform__ env 2 (VNum 5) 2 initialState = Thrown crossProduct_undefined
  ∧ ∃ s, __transform__ env 2 (VNum 5) 3 initialState
         = Ret (Failure 2 ["expected 4"; "rejected"; "expected 4"]
                        ["looked at it"]) s.
Proof. intros env. split; [reflexivity|]. by eexists. Qed.


(* ================================================================== *)
(** * Further properties of the library *)

(* ------------------------------------------------------------------ *)
(** ** [union] *)

Section Union.
Context (env : TrId -> Transformer) (fuel : nat).
Context (traverse : Transform) (input : Val).

(** Without a [Valid] result the loop only fills its two slots: each keeps
    what it has, or takes the first result of its kind. *)
Lemma run_unionLoop_without_Valid ts s rs s1 firstInvalid firstFailure :
  RunsEach env fuel traverse input ts s rs s1 ->
  Forall (fun r => isValid r = false) rs ->
  run env fuel (unionLoop traverse input ts firstInvalid firstFailure) s
  = run env fuel
      (unionLoop traverse input []
         (match firstInvalid with
          | Some r => Some r
          | None => firstOf isInvalid rs
          end)
         (match firstFailure with
          | Some r => Some r
          | None => firstOf isFailure rs
          end)) s1.
Proof.
  intros Hruns. revert firstInvalid firstFailure.
  induction Hruns as [s|t ts s r s1 rs s2 Hrun _ IH];
    intros firstInvalid firstFailure Hrs.
  - unfold firstOf. simpl. by destruct firstInvalid, firstFailure.
  - apply Forall_cons in Hrs as [Hr Hrs].
    change (unionLoop traverse input (t :: ts) firstInvalid firstFailure)
      with (traverse input t ≫= fun result =>
              if isValid result then Done result
              else if isInvalid result then
                unionLoop traverse input ts
                          (Some (default result firstInvalid)) firstFailure
              else
                unionLoop traverse input ts
                          firstInvalid (Some (default result firstFailure))).
    rewrite run_bind, Hrun, Hr.
    destruct r as [ref v ws cs|ref v es ws cs|ref es ws]; [done| |];
      cbn [isInvalid]; rewrite IH by done; unfold firstOf.
    + rewrite filter_cons_True by done.
      rewrite filter_cons_False by done. by destruct firstInvalid.
    + rewrite filter_cons_False by done.
      rewrite filter_cons_True by done. by destruct firstFailure.
Qed.

End Union.

(** X1. [union] stops at the first [Valid] result: when the alternatives
    before [t] return results that are not [Valid] and [t] returns a [Valid]
    one, [union] returns that very result in the state [t] left; the
    alternatives after [t] are not requested, whatever they are. *)
Theorem union_first_Valid env fuel traverse input before t after s rs s1 r s2 :
  RunsEach env fuel traverse input before s rs s1 ->
  Forall (fun r' => isValid r' = false) rs ->
  run env fuel (traverse input t) s1 = Ret r s2 ->
  isValid r = true ->
  run env fuel (union (before ++ t :: after) input traverse) s = Ret r s2.
Proof.
  intros Hruns Hrs Hrun Hvalid. unfold union.
  generalize (@None ValidationResult) at 1 as firstInvalid.
  generalize (@None ValidationResult) as firstFailure.
  induction Hruns as [s|t0 ts s r0 s0 rs s1 Hrun0 _ IH];
    intros firstFailure firstInvalid; simpl app.
  - change (unionLoop traverse input (t :: after) firstInvalid firstFailure)
      with (traverse input t ≫= fun result =>
              if isValid result then Done result
              else if isInvalid result then
                unionLoop traverse input after
                          (Some (default result firstInvalid)) firstFailure
              else
                unionLoop traverse input after
                          firstInvalid (Some (default result firstFailure))).
    by rewrite run_bind, Hrun, Hvalid, run_Done.
  - apply Forall_cons in Hrs as [Hr0 Hrs].
    change (unionLoop traverse input (t0 :: ts ++ t :: after)
                      firstInvalid firstFailure)
      with (traverse input t0 ≫= fun result =>
              if isValid result then Done result
              else if isInvalid result then
                unionLoop traverse input (ts ++ t :: after)
                          (Some (default result firstInvalid)) firstFailure
              else
                unionLoop traverse input (ts ++ t :: after)
                          firstInvalid (Some (default result firstFailure))).
    rewrite run_bind, Hrun0, Hr0. destruct (isInvalid r0); by apply IH.
Qed.

Lemma union_first_Valid_witness :
  ∃ s2,
    run sampleEnv 1 (union ([1] ++ 0 :: [1]) (VNum 4) transform) (stateAt 0)
    = Ret (Valid 1 (VNum 4) [] [CaptureSet.new []]) s2.
Proof.
  eexists.
  eapply (union_first_Valid sampleEnv 1 transform (VNum 4) [1] 0 [1]
            (stateAt 0) [Failure 0 ["rejected"] ["looked at it"]]).
  - eapply runs_cons; [reflexivity | apply runs_nil].
  - by repeat constructor.
  - reflexivity.
  - reflexivity.
Defined.

(** X2. When no alternative returns a [Valid] result, [union] requests them
    all and returns, in the state the last one left, the first [Invalid]
    result, or without one the first [Failure], each as the very object its
    alternative returned; with no alternative at all it builds a [Failure]
    of its own. *)
Theorem union_without_Valid env fuel traverse input ts s rs s1 :
  RunsEach env fuel traverse input ts s rs s1 ->
  Forall (fun r => isValid r = false) rs ->
  run env fuel (union ts input traverse) s
  = match firstOf isInvalid rs, firstOf isFailure rs with
    | Some r, _ => Ret r s1
    | None, Some r => Ret r s1
    | None, None =>
        Ret (Failure (next_ref s1) ["The impossible happened"] []) (allocate s1)
    end
  ∧ (firstOf isInvalid rs = None -> firstOf isFailure rs = None -> ts = []).
Proof.
  intros Hruns Hrs. split.
  - unfold union.
    rewrite (run_unionLoop_without_Valid _ _ _ _ _ _ _ _ _ _ Hruns Hrs).
    simpl unionLoop.
    destruct (firstOf isInvalid rs), (firstOf isFailure rs);
      rewrite ?run_Done, ?run_failure; done.
  - destruct Hruns as [s|t ts s r s1 rs s2 Hrun _]; [done|].
    apply Forall_cons in Hrs as [Hr _]. unfold firstOf.
    destruct r as [ref v ws cs|ref v es ws cs|ref es ws]; [done| |].
    + by rewrite filter_cons_True.
    + intros _. by rewrite filter_cons_True.
Qed.

Lemma union_without_Valid_witness :
  let rs := [Failure 0 ["rejected"] ["looked at it"];
             Invalid 1 (VNum 5) ["expected 4"] [] [CaptureSet.new []];
             Failure 0 ["rejected"] ["looked at it"]] in
  ∃ s1,
    run sampleEnv 1 (union [1; 0; 1] (VNum 5) transform) (stateAt 0)
    = Ret (Invalid 1 (VNum 5) ["expected 4"] [] [CaptureSet.new []]) s1
    ∧ (firstOf isInvalid rs = None -> firstOf isFailure rs = None ->
       [1; 0; 1] = @nil TrId).
Proof.
  intros rs. eexists.
  apply (union_without_Valid sampleEnv 1 transform (VNum 5) [1; 0; 1]
           (stateAt 0) rs).
  - eapply runs_cons; [reflexivity|].
    eapply runs_cons; [reflexivity|].
    eapply runs_cons; [reflexivity|]. apply runs_nil.
  - by repeat constructor.
Defined.

(* ------------------------------------------------------------------ *)
(** ** [chain] past a [Failure] *)

Section Reduce.
Context (env : TrId -> Transformer) (fuel : nat).

Lemma run_reduce_app {T R} (f : R -> T -> Prog R) (l1 l2 : list T) init s :
  run env fuel (reduce f (l1 ++ l2) init) s
  = match run env fuel (reduce f l1 init) s with
    | Ret acc s' => run env fuel (reduce f l2 acc) s'
    | Thrown msg => Thrown msg
    | OutOfFuel => OutOfFuel
    end.
Proof.
  revert init s. induction l1 as [|x l1 IH]; intros init s; simpl.
  - by rewrite run_Done.
  - rewrite !run_bind. destruct (run env fuel (f init x) s); [apply IH|done..].
Qed.

Lemma run_reduce_bind_Failure (step : Val -> TrId -> Prog ValidationResult)
    (ts : list TrId) r s :
  isFailure r = true ->
  run env fuel
    (reduce (fun lastResult transformer =>
               bind lastResult (fun lastValue => step lastValue transformer))
            ts r) s
  = Ret r s.
Proof.
  intros Hr. induction ts as [|t ts IH]; simpl; [apply run_Done|].
  by rewrite run_bind, bind_Failure, run_Done.
Qed.

End Reduce.

(** X3. A [chain] ends at the first [Failure]: when the chain of the first
    stages returns a [Failure], the chain with any further stages returns
    that very result in the same state, so none of the further stages is
    requested. *)
Theorem chain_stops_at_Failure env fuel traverse input first stages further
    s r s1 :
  run env fuel (chain first stages input traverse) s = Ret r s1 ->
  isFailure r = true ->
  run env fuel (chain first (stages ++ further) input traverse) s = Ret r s1.
Proof.
  unfold chain. rewrite !run_bind.
  destruct (run env fuel (traverse input first) s) as [result s0| |];
    [|done..].
  intros Hstages Hr. rewrite run_reduce_app, Hstages.
  by apply run_reduce_bind_Failure.
Qed.

Lemma chain_stops_at_Failure_witness :
  ∃ s1,
    run sampleEnv 1 (chain 0 ([1] ++ [0; 0]) (VNum 4) transform) (stateAt 0)
    = Ret (Failure 2 ["rejected"] ["looked at it"]) s1.
Proof.
  eexists.
  apply (chain_stops_at_Failure sampleEnv 1 transform (VNum 4) 0 [1] [0; 0]
           (stateAt 0)); reflexivity.
Defined.

(* ------------------------------------------------------------------ *)
(** ** [mergeResults] without a [Failure], and [intersection] *)

Section MergeAll.
Context (env : TrId -> Transformer) (fuel : nat).

Lemma valueAndCaptures_fields r v cs :
  valueAndCaptures r = Some (v, cs) <-> value r = Some v ∧ captures r = Some cs.
Proof.
  destruct r; simpl; split; try (intros [??]; congruence);
    intros; simplify_eq; done.
Qed.

Lemma omap_value_cons r rs v :
  value r = Some v -> omap value (r :: rs) = v :: omap value rs.
Proof.
  intros Hv.
  change (omap value (r :: rs))
    with (match value r with
          | Some y => y :: omap value rs
          | None => omap value rs
          end).
  by rewrite Hv.
Qed.

Lemma length_omap_value rs :
  Forall (fun r => isFailure r = false) rs ->
  length (omap value rs) = length rs.
Proof.
  induction 1 as [|r rs Hr _ IH]; [done|].
  destruct r as [ref v ws cs|ref v es ws cs|]; [..|done];
    rewrite (omap_value_cons _ _ v) by done; simpl; by rewrite IH.
Qed.

(** Without a [Failure] the loop takes every value and files every list of
    capture sets under its producer. *)
Lemma run_collect_all results values all s :
  Forall (fun r => isFailure r = false) results ->
  run env fuel (collectUntilFailure results values all) s
  = Ret (values ++ omap value results,
         grouped (productionContext s) results all) s.
Proof.
  intros Hall. revert values all.
  induction Hall as [|r results Hr _ IH]; intros values all; simpl.
  - by rewrite run_Done, app_nil_r.
  - destruct r as [ref v ws cs|ref v es ws cs|]; [..|done]; simpl;
      rewrite run_ProducerOf, IH, <- app_assoc; reflexivity.
Qed.

Lemma grouped_nonempty pc results all :
  all ≠ [] ∨ results ≠ [] -> grouped pc results all ≠ [].
Proof.
  revert all. induction results as [|r results IH]; intros all Hne; simpl.
  - by destruct Hne.
  - apply IH. left. apply MultiMap_add_nonempty.
Qed.

(** One producer: one list, in the order of the results. *)
Lemma grouped_one_producer pc producer results acc :
  Forall (fun r => pc !! result_ref r = producer) results ->
  grouped pc results [(producer, acc)]
  = [(producer, acc ++ concat (map worlds results))].
Proof.
  intros Hall. revert acc. induction Hall as [|r results Hr _ IH]; intros acc;
    simpl.
  - by rewrite app_nil_r.
  - rewrite Hr. unfold MultiMap.add, MultiMap.get. simpl.
    rewrite decide_True by done. simpl. rewrite decide_True by done.
    by rewrite IH, <- app_assoc.
Qed.

(** The fields of the result [bind] builds from a binding that did not
    fail. *)
Lemma bound_fields self next ref v cs :
  valueAndCaptures next = Some (v, cs) ->
  let r := bound self next ref in
  result_ref r = ref ∧ value r = Some v
  ∧ warnings r = warnings self ++ warnings next
  ∧ errors_or_empty r = errors_or_empty self ++ errors_or_empty next
  ∧ captures r = Some (crossTwo (worlds self) cs)
  ∧ (isValid r = true <-> errors_or_empty self ++ errors_or_empty next = []).
Proof.
  intros Hnext. unfold bound. rewrite Hnext. unfold worlds.
  by destruct (errors_or_empty self ++ errors_or_empty next) as [|e es].
Qed.

(** [mergeResults] on results without a [Failure], in terms of the cross
    product of the filed lists. *)
Lemma run_mergeResults_all results mapping s :
  results ≠ [] -> Forall (fun r => isFailure r = false) results ->
  ∃ crossed,
    crossProductCaptures
      (JsMap.values (grouped (productionContext s) results MultiMap.empty))
    = Done crossed
    ∧ run env fuel (mergeResults results mapping) s
      = match run env fuel (mapping (omap value results)) s with
        | Ret mapped s1 =>
            match valueAndCaptures mapped with
            | None =>
                Ret (Failure (next_ref s1)
                       (errors_or_empty mapped
                        ++ flatMap results errors_or_empty)
                       (warnings mapped ++ flatMap results warnings))
                    (allocate s1)
            | Some (v, cs) =>
                Ret (bound mapped
                       (match flatMap results errors_or_empty with
                        | [] => Valid (next_ref s1) v
                                  (flatMap results warnings) crossed
                        | _ :: _ => Invalid (next_ref s1) v
                                  (flatMap results errors_or_empty)
                                  (flatMap results warnings) crossed
                        end)
                       (S (next_ref s1)))
                    (allocate (allocate s1))
            end
        | Thrown msg => Thrown msg
        | OutOfFuel => OutOfFuel
        end.
Proof.
  intros Hne Hall.
  destruct (crossProductCaptures_returns
              (JsMap.values (grouped (productionContext s) results
                               MultiMap.empty))) as [crossed Hcrossed].
  { pose proof (grouped_nonempty (productionContext s) results MultiMap.empty
                  (or_intror Hne)) as Hg.
    unfold JsMap.values. by destruct (grouped _ _ _). }
  exists crossed. split; [done|].
  unfold mergeResults. rewrite run_bind.
  pose proof (run_collect_all results [] MultiMap.empty s Hall) as Hcollect.
  unfold MultiMap.t in *. rewrite Hcollect. simpl fst. simpl snd.
  rewrite run_bind, Hcrossed, run_Done.
  rewrite length_omap_value, Nat.eqb_refl by done. rewrite run_bind.
  destruct (run env fuel (mapping (omap value results)) s) as [mapped s1| |];
    [|done..].
  destruct mapped as [ref v ws cs|ref v es ws cs|ref es ws]; simpl valueAndCaptures.
  - destruct (flatMap results errors_or_empty) as [|e es'] eqn:HE; simpl Nat.eqb;
      cbv iota;
      rewrite (run_bind_nonFailure _ _ _ _ v) by done;
      by rewrite ?run_valid, ?run_invalid.
  - destruct (flatMap results errors_or_empty) as [|e es'] eqn:HE; simpl Nat.eqb;
      cbv iota;
      rewrite (run_bind_nonFailure _ _ _ _ v) by done;
      by rewrite ?run_valid, ?run_invalid.
  - by rewrite run_failure.
Qed.

Lemma run_mapP_RunsEach traverse input ts s rs s1 :
  RunsEach env fuel traverse input ts s rs s1 ->
  run env fuel (mapP (fun t => traverse input t) ts) s = Ret rs s1.
Proof.
  induction 1 as [s|t ts s r s1 rs s2 Hrun _ IH]; simpl.
  - apply run_Done.
  - by rewrite run_bind, Hrun, run_bind, IH, run_Done.
Qed.

End MergeAll.

Lemma flatMap_nil_iff {T U : Type} (arr : list T) (fn : T -> list U) :
  flatMap arr fn = [] <-> Forall (fun x => fn x = []) arr.
Proof.
  unfold flatMap. induction arr as [|x arr IH]; simpl.
  - split; [constructor | done].
  - rewrite Forall_cons, <- IH. split; [apply app_eq_nil|].
    by intros [-> ->].
Qed.

Lemma RunsEach_nonempty env fuel traverse input ts s rs s1 :
  RunsEach env fuel traverse input ts s rs s1 -> ts ≠ [] -> rs ≠ [].
Proof. by destruct 1. Qed.

(** The fields of what [mergeResults] returns when neither a result nor the
    mapping fails. *)
Lemma run_mergeResults_passing env fuel results mapping s mapped s1 :
  results ≠ [] ->
  Forall (fun r => isFailure r = false) results ->
  run env fuel (mapping (omap value results)) s = Ret mapped s1 ->
  isFailure mapped = false ->
  ∃ r,
    run env fuel (mergeResults results mapping) s
    = Ret r (allocate (allocate s1))
    ∧ value r = value mapped
    ∧ warnings r = warnings mapped ++ flatMap results warnings
    ∧ errors_or_empty r
      = errors_or_empty mapped ++ flatMap results errors_or_empty
    ∧ (isValid r = true
       <-> errors_or_empty mapped = []
           ∧ Forall (fun r' => errors_or_empty r' = []) results).
Proof.
  intros Hne Hall Hmapped Hok.
  destruct (run_mergeResults_all env fuel results mapping s Hne Hall)
    as (crossed & _ & Hrun).
  rewrite Hmapped in Hrun.
  destruct (valueAndCaptures mapped) as [[v cs]|] eqn:Hvc;
    [|by destruct mapped].
  eexists. split; [exact Hrun|].
  apply valueAndCaptures_fields in Hvc as [Hv _]. rewrite Hv.
  rewrite <- flatMap_nil_iff.
  destruct (flatMap results errors_or_empty) as [|e es] eqn:HE.
  - edestruct (bound_fields mapped
                 (Valid (next_ref s1) v (flatMap results warnings) crossed))
      as (_ & Hvalue & Hws & Hes & _ & Hvalid); [reflexivity|].
    rewrite Hvalue, Hws, Hes. simpl.
    split_and!; [done|done|by rewrite !app_nil_r|].
    rewrite Hvalid. simpl. rewrite app_nil_r.
    split; [by intros -> | by intros [-> _]].
  - edestruct (bound_fields mapped
                 (Invalid (next_ref s1) v (e :: es)
                    (flatMap results warnings) crossed))
      as (_ & Hvalue & Hws & Hes & _ & Hvalid); [reflexivity|].
    rewrite Hvalue, Hws, Hes. simpl.
    split_and!; [done..|]. rewrite Hvalid. simpl.
    split; [|by intros [_ ?]].
    intros [_ ?]%app_eq_nil. done.
Qed.

(** X4. [mergeResults] on one result or more, none of them a [Failure],
    with a mapping that does not return a [Failure] either: the mapping is
    run once, first, on the values of the results in their order; the new
    result has the mapping's value, the mapping's warnings and errors
    followed by those of the results in their order, and it is a [Valid]
    exactly when there is no error among all of these. Two objects are
    allocated after the mapping. *)
Theorem mergeResults_without_Failure env fuel results mapping s mapped s1 :
  results ≠ [] ->
  Forall (fun r => isFailure r = false) results ->
  run env fuel (mapping (omap value results)) s = Ret mapped s1 ->
  isFailure mapped = false ->
  ∃ r,
    run env fuel (mergeResults results mapping) s
    = Ret r (allocate (allocate s1))
    ∧ value r = value mapped
    ∧ warnings r = warnings mapped ++ flatMap results warnings
    ∧ errors_or_empty r
      = errors_or_empty mapped ++ flatMap results errors_or_empty
    ∧ (isValid r = true
       <-> errors_or_empty mapped = []
           ∧ Forall (fun r' => errors_or_empty r' = []) results).
Proof. apply run_mergeResults_passing. Qed.

Lemma mergeResults_without_Failure_witness :
  let results := [Invalid 0 (VNum 1) ["e0"] ["w0"] [CaptureSet.init];
                  Valid 1 (VNum 2) ["w1"] [CaptureSet.init]] in
  let mapping := fun values : list Val =>
    valid (default VNull (last values)) (Some (Str "wm")) None in
  ∃ r,
    run sampleEnv 0 (mergeResults results mapping) (stateAt 2)
    = Ret r (allocate (allocate (allocate (stateAt 2))))
    ∧ value r = Some (VNum 2)
    ∧ warnings r = ["wm"; "w0"; "w1"]
    ∧ errors_or_empty r = ["e0"]
    ∧ (isValid r = true
       <-> [] = @nil string
           ∧ Forall (fun r' => errors_or_empty r' = []) results).
Proof.
  intros results mapping.
  apply (mergeResults_without_Failure sampleEnv 0 results mapping (stateAt 2)
           (Valid 2 (VNum 2) ["wm"] [CaptureSet.new []])
           (allocate (stateAt 2))).
  - done.
  - by repeat constructor.
  - reflexivity.
  - reflexivity.
Defined.

(** X5. [mergeResults] on one result or more, none of them a [Failure],
    with a mapping that returns a [Failure]: the new result is a [Failure]
    with the mapping's errors and warnings followed by those of the results
    in their order. One object is allocated after the mapping. *)
Theorem mergeResults_mapping_Failure env fuel results mapping s mapped s1 :
  results ≠ [] ->
  Forall (fun r => isFailure r = false) results ->
  run env fuel (mapping (omap value results)) s = Ret mapped s1 ->
  isFailure mapped = true ->
  run env fuel (mergeResults results mapping) s
  = Ret (Failure (next_ref s1)
           (errors_or_empty mapped ++ flatMap results errors_or_empty)
           (warnings mapped ++ flatMap results warnings))
        (allocate s1).
Proof.
  intros Hne Hall Hmapped Hfailed.
  destruct (run_mergeResults_all env fuel results mapping s Hne Hall)
    as (crossed & _ & Hrun).
  rewrite Hmapped in Hrun. by destruct mapped.
Qed.

Lemma mergeResults_mapping_Failure_witness :
  let results := [Invalid 0 (VNum 1) ["e0"] ["w0"] [CaptureSet.init];
                  Valid 1 (VNum 2) ["w1"] [CaptureSet.init]] in
  run sampleEnv 0
    (mergeResults results (fun _ => failure (Str "em") (Some (Str "wm"))))
    (stateAt 2)
  = Ret (Failure 3 ["em"; "e0"] ["wm"; "w0"; "w1"])
        (allocate (allocate (stateAt 2))).
Proof.
  intros results.
  apply (mergeResults_mapping_Failure sampleEnv 0 results
           (fun _ => failure (Str "em") (Some (Str "wm"))) (stateAt 2)
           (Failure 2 ["em"] ["wm"]) (allocate (stateAt 2))).
  - done.
  - by repeat constructor.
  - reflexivity.
  - reflexivity.
Defined.

(** X6. [intersection] requests every member on the input, in order, also
    the members after one that failed. When the first member does not
    return a [Failure] and a later one does, the result is a new [Failure]
    with the errors and the warnings of all members in their order. *)
Theorem intersection_with_Failure env fuel traverse input ts s r rest s1 :
  RunsEach env fuel traverse input ts s (r :: rest) s1 ->
  isFailure r = false ->
  Exists (fun r' => isFailure r' = true) rest ->
  run env fuel (intersection ts input traverse) s
  = Ret (Failure (next_ref s1)
           (flatMap (r :: rest) errors_or_empty)
           (flatMap (r :: rest) warnings))
        (allocate s1).
Proof.
  intros Hruns Hr Hrest. unfold intersection.
  rewrite run_bind, (run_mapP_RunsEach _ _ _ _ _ _ _ _ Hruns).
  by apply run_mergeResults_later_Failure.
Qed.

Lemma intersection_with_Failure_witness :
  ∃ s1,
    run sampleEnv 1 (intersection [0; 1; 0] (VNum 5) transform) (stateAt 0)
    = Ret (Failure (next_ref s1)
             ["expected 4"; "rejected"; "expected 4"] ["looked at it"])
          (allocate s1).
Proof.
  eexists.
  apply (intersection_with_Failure sampleEnv 1 transform (VNum 5) [0; 1; 0]
           (stateAt 0) (Invalid 0 (VNum 5) ["expected 4"] [] [CaptureSet.new []])
           [Failure 1 ["rejected"] ["looked at it"];
            Invalid 0 (VNum 5) ["expected 4"] [] [CaptureSet.new []]]).
  - eapply runs_cons; [reflexivity|].
    eapply runs_cons; [reflexivity|].
    eapply runs_cons; [reflexivity|]. apply runs_nil.
  - reflexivity.
  - by constructor.
Defined.

(** X7. [intersection] of one member or more, none of which returns a
    [Failure]: the result has the input as its value and the warnings and
    the errors of the members in their order; it is a [Valid] exactly when
    no member reported an error. Three objects are allocated after the
    last member. *)
Theorem intersection_without_Failure env fuel traverse input ts s rs s1 :
  RunsEach env fuel traverse input ts s rs s1 ->
  ts ≠ [] ->
  Forall (fun r => isFailure r = false) rs ->
  ∃ r,
    run env fuel (intersection ts input traverse) s
    = Ret r (allocate (allocate (allocate s1)))
    ∧ value r = Some input
    ∧ warnings r = flatMap rs warnings
    ∧ errors_or_empty r = flatMap rs errors_or_empty
    ∧ (isValid r = true <-> Forall (fun r' => errors_or_empty r' = []) rs).
Proof.
  intros Hruns Hne Hall.
  destruct (run_mergeResults_passing env fuel rs
              (fun _ => valid input None None) s1
              (Valid (next_ref s1) input [] [CaptureSet.new []]) (allocate s1))
    as (r & Hrun & Hvalue & Hws & Hes & Hvalid);
    [by eapply RunsEach_nonempty | done | apply run_valid | done |].
  exists r. unfold intersection.
  rewrite run_bind, (run_mapP_RunsEach _ _ _ _ _ _ _ _ Hruns).
  split_and!; try done. rewrite Hvalid. split; [by intros [_ ?] | by split].
Qed.

Lemma intersection_without_Failure_witness :
  ∃ s1 r,
    run sampleEnv 1 (intersection [0; 0] (VNum 5) transform) (stateAt 0)
    = Ret r (allocate (allocate (allocate s1)))
    ∧ value r = Some (VNum 5)
    ∧ warnings r = []
    ∧ errors_or_empty r = ["expected 4"; "expected 4"]
    ∧ (isValid r = true
       <-> Forall (fun r' => errors_or_empty r' = [])
             [Invalid 0 (VNum 5) ["expected 4"] [] [CaptureSet.new []];
              Invalid 0 (VNum 5) ["expected 4"] [] [CaptureSet.new []]]).
Proof.
  eexists.
  apply (intersection_without_Failure sampleEnv 1 transform (VNum 5) [0; 0]
           (stateAt 0)
           [Invalid 0 (VNum 5) ["expected 4"] [] [CaptureSet.new []];
            Invalid 0 (VNum 5) ["expected 4"] [] [CaptureSet.new []]]).
  - eapply runs_cons; [reflexivity|].
    eapply runs_cons; [reflexivity|]. apply runs_nil.
  - done.
  - by repeat constructor.
Defined.

(* ------------------------------------------------------------------ *)
(** ** The captures [mergeResults] combines *)

Section MergeCaptures.
Context (env : TrId -> Transformer) (fuel : nat).

Lemma run_mergeResults_captures results mapping s mapped s1 crossed :
  results ≠ [] ->
  Forall (fun r => isFailure r = false) results ->
  crossProductCaptures
    (JsMap.values (grouped (productionContext s) results MultiMap.empty))
  = Done crossed ->
  run env fuel (mapping (omap value results)) s = Ret mapped s1 ->
  isFailure mapped = false ->
  ∃ r,
    run env fuel (mergeResults results mapping) s
    = Ret r (allocate (allocate s1))
    ∧ captures r = Some (crossTwo (worlds mapped) crossed).
Proof.
  intros Hne Hall Hcrossed Hmapped Hok.
  destruct (run_mergeResults_all env fuel results mapping s Hne Hall)
    as (crossed' & Hcrossed' & Hrun).
  rewrite Hcrossed in Hcrossed'. injection Hcrossed' as <-.
  rewrite Hmapped in Hrun.
  destruct (valueAndCaptures mapped) as [[v cs]|] eqn:Hvc;
    [|by destruct mapped].
  eexists. split; [exact Hrun|].
  destruct (flatMap results errors_or_empty) as [|e es].
  - edestruct (bound_fields mapped
                 (Valid (next_ref s1) v (flatMap results warnings) crossed))
      as (_ & _ & _ & _ & Hcs & _); [reflexivity | exact Hcs].
  - edestruct (bound_fields mapped
                 (Invalid (next_ref s1) v (e :: es)
                    (flatMap results warnings) crossed))
      as (_ & _ & _ & _ & Hcs & _); [reflexivity | exact Hcs].
Qed.

Lemma JsMap_get_fresh {K V : Type} `{EqDecision K} (k : K) (m : JsMap.t K V) :
  k ∉ m.*1 -> JsMap.get k m = None.
Proof.
  induction m as [|[k' v'] m IH]; simpl; [done|].
  rewrite not_elem_of_cons. intros [Hne Hnotin].
  rewrite decide_False by done. by apply IH.
Qed.

Lemma JsMap_set_fresh {K V : Type} `{EqDecision K} (k : K) (v : V)
    (m : JsMap.t K V) :
  k ∉ m.*1 -> JsMap.set k v m = m ++ [(k, v)].
Proof.
  induction m as [|[k' v'] m IH]; simpl; [done|].
  rewrite not_elem_of_cons. intros [Hne Hnotin].
  rewrite decide_False by done. by rewrite IH.
Qed.

Lemma JsMap_set_last {K V : Type} `{EqDecision K} (k : K) (v v' : V)
    (m : JsMap.t K V) :
  k ∉ m.*1 -> JsMap.set k v' (m ++ [(k, v)]) = m ++ [(k, v')].
Proof.
  induction m as [|[k0 v0] m IH]; simpl.
  - intros _. by rewrite decide_True.
  - rewrite not_elem_of_cons. intros [Hne Hnotin].
    rewrite decide_False by done. by rewrite IH.
Qed.

(** A producer that has no list yet gets one, after the others. *)
Lemma MultiMap_add_fresh {K V : Type} `{EqDecision K} (k : K) (vs : list V)
    (m : MultiMap.t K V) :
  k ∉ m.*1 -> MultiMap.add k vs m = m ++ [(k, vs)].
Proof.
  intros Hfresh. unfold MultiMap.add, MultiMap.get.
  rewrite JsMap_get_fresh by done.
  rewrite (JsMap_set_fresh k [] m) by done. by rewrite JsMap_set_last.
Qed.

Lemma grouped_distinct_producers pc results all :
  NoDup (all.*1 ++ map (fun r => pc !! result_ref r) results) ->
  grouped pc results all
  = all ++ map (fun r => (pc !! result_ref r, worlds r)) results.
Proof.
  revert all. induction results as [|r results IH]; intros all Hnd; simpl.
  - by rewrite app_nil_r.
  - simpl in Hnd. apply NoDup_app in Hnd as (Hall & Hdisjoint & Hrs).
    rewrite MultiMap_add_fresh.
    + rewrite IH; [by rewrite <- app_assoc|].
      rewrite fmap_app. simpl. rewrite <- app_assoc. simpl.
      apply NoDup_app. split_and!; [done|done|done].
    + intros Hin. apply (Hdisjoint _ Hin). by left.
Qed.

End MergeCaptures.

(** X8. Results that come from one producer (the same transformer, or none
    recorded) are alternatives to [mergeResults]: their capture sets are
    concatenated in the order of the results, not combined, before they are
    combined with those of the mapping's result. *)
Theorem mergeResults_same_producer env fuel results mapping s mapped s1
    producer :
  results ≠ [] ->
  Forall (fun r => isFailure r = false) results ->
  Forall (fun r => productionContext s !! result_ref r = producer) results ->
  run env fuel (mapping (omap value results)) s = Ret mapped s1 ->
  isFailure mapped = false ->
  ∃ r,
    run env fuel (mergeResults results mapping) s
    = Ret r (allocate (allocate s1))
    ∧ captures r
      = Some (crossTwo (worlds mapped) (concat (map worlds results))).
Proof.
  intros Hne Hall Hproducer. apply run_mergeResults_captures; [done..|].
  destruct results as [|r results]; [done|].
  apply Forall_cons in Hproducer as [Hr Hproducer].
  unfold grouped. simpl fold_left.
  rewrite (MultiMap_add_fresh _ _ MultiMap.empty) by apply not_elem_of_nil.
  rewrite Hr. simpl app.
  pose proof (grouped_one_producer (productionContext s) producer results
                (worlds r) Hproducer) as Hg.
  unfold grouped in Hg. by rewrite Hg.
Qed.

Lemma mergeResults_same_producer_witness :
  let world := singleCapture 7 (mkCapture 5 (VNum 4) 0) in
  let results := [Valid 0 (VNum 4) [] [world];
                  Valid 1 (VNum 4) [] [CaptureSet.init; world]] in
  ∃ r,
    run sampleEnv 0 (mergeResults results (fun _ => valid VNull None (Some [])))
        (stateAt 2)
    = Ret r (allocate (allocate (allocate (stateAt 2))))
    ∧ captures r = Some [world; CaptureSet.init; world].
Proof.
  intros world results.
  apply (mergeResults_same_producer sampleEnv 0 results
           (fun _ => valid VNull None (Some [])) (stateAt 2)
           (Valid 2 VNull [] []) (allocate (stateAt 2)) None).
  - done.
  - by repeat constructor.
  - by repeat constructor.
  - reflexivity.
  - reflexivity.
Defined.

(** X9. Results that come from pairwise distinct producers are combined by
    [mergeResults]: the capture sets of the new result are the cross
    product of the mapping's capture sets with the cross product of the
    results' lists of capture sets, taken in the order of the results. *)
Theorem mergeResults_distinct_producers env fuel results mapping s mapped s1 :
  results ≠ [] ->
  Forall (fun r => isFailure r = false) results ->
  NoDup (map (fun r => productionContext s !! result_ref r) results) ->
  run env fuel (mapping (omap value results)) s = Ret mapped s1 ->
  isFailure mapped = false ->
  ∃ r crossed,
    run env fuel (mergeResults results mapping) s
    = Ret r (allocate (allocate s1))
    ∧ crossProductCaptures (map worlds results) = Done crossed
    ∧ captures r = Some (crossTwo (worlds mapped) crossed).
Proof.
  intros Hne Hall Hnd Hmapped Hok.
  destruct (crossProductCaptures_returns (map worlds results))
    as [crossed Hcrossed]; [by destruct results|].
  destruct (run_mergeResults_captures env fuel results mapping s mapped s1
              crossed) as (r & Hrun & Hcs); [done|done| |done|done|].
  - rewrite (grouped_distinct_producers _ _ MultiMap.empty) by done.
    simpl. unfold JsMap.values. rewrite map_map. simpl. exact Hcrossed.
  - by exists r, crossed.
Qed.

Lemma mergeResults_distinct_producers_witness :
  let a := singleCapture 7 (mkCapture 5 (VNum 4) 0) in
  let b := singleCapture 8 (mkCapture 6 (VNum 4) 1) in
  let results := [Valid 0 (VNum 4) [] [a]; Valid 1 (VNum 4) [] [b; b]] in
  let s := {| next_ref := 2; productionContext := {[0 := 0; 1 := 1]};
              cache := ∅; log := [] |} in
  ∃ r crossed,
    run sampleEnv 0 (mergeResults results (fun _ => valid VNull None (Some [])))
        s
    = Ret r (allocate (allocate (allocate s)))
    ∧ crossProductCaptures (map worlds results) = Done crossed
    ∧ captures r = Some (crossTwo [] crossed).
Proof.
  intros a b results s.
  apply (mergeResults_distinct_producers sampleEnv 0 results
           (fun _ => valid VNull None (Some [])) s
           (Valid 2 VNull [] []) (allocate s)).
  - done.
  - by repeat constructor.
  - apply (bool_decide_unpack _). vm_compute. reflexivity.
  - reflexivity.
  - reflexivity.
Defined.

(* ------------------------------------------------------------------ *)
(** ** The size of a cross product *)

Lemma length_flatMap_map {T U V : Type} (foos : list T) (bars : list U)
    (f : T -> U -> V) :
  length (flatMap foos (fun foo => map (fun bar => f foo bar) bars))
  = length foos * length bars.
Proof.
  unfold flatMap. induction foos as [|foo foos IH]; simpl; [done|].
  by rewrite length_app, length_map, IH.
Qed.

(** X10. For sibling lists that are all non-empty, [crossProductCaptures]
    returns one capture set for every way to choose one capture set from
    each sibling list: as many as the product of the lengths. *)
Theorem crossProductCaptures_size siblings :
  siblings ≠ [] ->
  Forall (fun foos => foos ≠ []) siblings ->
  ∃ crossed,
    crossProductCaptures siblings = Done crossed
    ∧ length crossed = foldr (fun foos n => length foos * n) 1 siblings.
Proof.
  induction siblings as [|foos rest IH]; [done|]. intros _ Hall.
  apply Forall_cons in Hall as [Hfoos Hall].
  destruct (decide (rest = [])) as [->|Hne].
  - exists foos. split; [done|]. simpl. lia.
  - destruct (IH Hne Hall) as (bars & Hbars & Hlen).
    rewrite crossProductCaptures_cons, Hbars by done. simpl.
    destruct foos as [|foo foos]; [done|]. simpl Nat.eqb. cbv iota.
    eexists. split; [done|].
    by rewrite (length_flatMap_map (foo :: foos)), Hlen.
Qed.

Lemma crossProductCaptures_size_witness :
  let world := singleCapture 7 (mkCapture 1 (VNum 4) 0) in
  ∃ crossed,
    crossProductCaptures
      [[world; CaptureSet.init]; [world]; [world; world; CaptureSet.init]]
    = Done crossed
    ∧ length crossed = 6.
Proof.
  intros world.
  apply (crossProductCaptures_size
           [[world; CaptureSet.init]; [world];
            [world; world; CaptureSet.init]]).
  - done.
  - by repeat constructor.
Defined.

(* ------------------------------------------------------------------ *)
(** ** A key that one child defines *)

Section SingleDefinition.
Implicit Types (key : CaptureKey) (io : Capture) (cs child : CaptureSet.t).

Lemma notin_add_other key key' io cs :
  key ≠ key' -> key ∉ CaptureSet.overloadedKeys cs ->
  key ∉ CaptureSet.overloadedKeys (CaptureSet.add key' io cs).
Proof.
  intros Hne Hnotin. unfold CaptureSet.add.
  destruct (JsSet.has key' _); [done|].
  destruct (JsMap.has key' _); simpl; [|done].
  rewrite JsSet_elem_add. by intros [?|?].
Qed.

Lemma notin_fold_add_others key (kvs : list (CaptureKey * Capture)) cs :
  (∀ kv, kv ∈ kvs -> kv.1 ≠ key) ->
  key ∉ CaptureSet.overloadedKeys cs ->
  key ∉ CaptureSet.overloadedKeys
          (fold_left (fun s kv => CaptureSet.add kv.1 kv.2 s) kvs cs).
Proof.
  revert cs. induction kvs as [|kv kvs IH]; intros cs Hne Hnotin; simpl;
    [done|].
  apply IH.
  - intros kv' Hin. apply Hne. by right.
  - apply notin_add_other; [|done]. intros ->. by apply (Hne kv); [left|].
Qed.

Lemma notin_fold_markOverloaded key (keys : list CaptureKey) cs :
  key ∉ keys -> key ∉ CaptureSet.overloadedKeys cs ->
  key ∉ CaptureSet.overloadedKeys
          (fold_left (fun s k => CaptureSet.markOverloaded k s) keys cs).
Proof.
  revert cs. induction keys as [|k keys IH]; intros cs Hkeys Hnotin; simpl;
    [done|].
  apply not_elem_of_cons in Hkeys as [Hne Hkeys].
  apply IH; [done|]. simpl. rewrite JsSet_elem_add. by intros [?|?].
Qed.

Lemma unmentioned_absorb key cs child :
  ¬ Mentions key cs -> ¬ Mentions key child ->
  ¬ Mentions key (CaptureSet.absorb cs child).
Proof.
  unfold Mentions. intros Hcs Hchild.
  assert (CaptureSet.get key child = None) as Hnone.
  { destruct (CaptureSet.get key child) eqn:Hget; [|done].
    exfalso. apply Hchild. right. by eexists. }
  intros [Hin|Hsome].
  - revert Hin. unfold CaptureSet.absorb.
    apply notin_fold_add_others.
    + intros kv Hin. by eapply JsMap_get_None_keys.
    + apply notin_fold_markOverloaded; tauto.
  - rewrite get_absorb_undefined in Hsome by done. tauto.
Qed.

Lemma unmentioned_fold_absorb key cs (children : list CaptureSet.t) :
  ¬ Mentions key cs -> Forall (fun c => ¬ Mentions key c) children ->
  ¬ Mentions key (fold_left CaptureSet.absorb children cs).
Proof.
  revert cs. induction children as [|child children IH]; intros cs Hcs Hall;
    simpl; [done|].
  apply Forall_cons in Hall as [Hchild Hall].
  apply IH; [|done]. by apply unmentioned_absorb.
Qed.

Lemma JsMap_get_Some_split (m : JsMap.t CaptureKey Capture) key io :
  JsMap.get key m = Some io -> NoDup m.*1 ->
  ∃ l1 l2, m = l1 ++ (key, io) :: l2
           ∧ (∀ kv, kv ∈ l1 -> kv.1 ≠ key) ∧ (∀ kv, kv ∈ l2 -> kv.1 ≠ key).
Proof.
  induction m as [|[k v] m IH]; simpl; [done|]. intros Hget Hnd.
  apply NoDup_cons in Hnd as [Hk Hnd].
  destruct (decide (key = k)) as [->|Hne].
  - injection Hget as ->. exists [], m. split_and!; [done| |].
    + intros kv Hin. by apply elem_of_nil in Hin.
    + intros kv Hin Heq. apply Hk. rewrite <- Heq.
      by apply list_elem_of_fmap_2.
  - destruct (IH Hget Hnd) as (l1 & l2 & -> & H1 & H2).
    exists ((k, v) :: l1), l2. split_and!; [done| |done].
    intros kv [->|Hin]%elem_of_cons; [simpl; congruence | by apply H1].
Qed.

(** A child that defines [key] once hands its capture to a set that has
    nothing for the key. *)
Lemma get_absorb_definition key io cs child :
  ¬ Mentions key cs ->
  key ∉ CaptureSet.overloadedKeys child ->
  CaptureSet.get key child = Some io ->
  NoDup (JsMap.entries (CaptureSet.definedKeys child)).*1 ->
  CaptureSet.get key (CaptureSet.absorb cs child) = Some io.
Proof.
  unfold Mentions. intros Hcs Hnotin Hget Hnd.
  destruct (JsMap_get_Some_split _ _ _ Hget Hnd) as (l1 & l2 & Hm & H1 & H2).
  unfold CaptureSet.absorb, JsMap.entries in *. rewrite Hm.
  rewrite fold_left_app. simpl. rewrite get_fold_add_others by done.
  apply CaptureSet_add_fresh.
  - apply notin_fold_add_others; [done|].
    apply notin_fold_markOverloaded; tauto.
  - rewrite get_fold_add_others, get_fold_markOverloaded by done.
    destruct (CaptureSet.get key cs) eqn:Hcsget; [|done].
    exfalso. apply Hcs. right. by eexists.
Qed.

Lemma get_new_single_definition key io (pre post : list CaptureSet.t) child :
  Forall (fun c => ¬ Mentions key c) pre ->
  key ∉ CaptureSet.overloadedKeys child ->
  CaptureSet.get key child = Some io ->
  NoDup (JsMap.entries (CaptureSet.definedKeys child)).*1 ->
  Forall (fun c => CaptureSet.get key c = None) post ->
  CaptureSet.get key (CaptureSet.new (pre ++ child :: post)) = Some io.
Proof.
  intros Hpre Hnotin Hget Hnd Hpost. unfold CaptureSet.new.
  rewrite fold_left_app. simpl. rewrite get_fold_absorb_undefined by done.
  apply get_absorb_definition; [|done..].
  apply unmentioned_fold_absorb; [|done].
  unfold Mentions. simpl. intros [Hin|[c Hc]]; [|done].
  by apply elem_of_nil in Hin.
Qed.

End SingleDefinition.

(** X11. Merging capture sets keeps a capture that has no rival: when one
    child defines the key (once, and not overloaded), the children before
    it have nothing for the key and the children after it do not define
    it, the merged set resolves the key to that child's capture. *)
Theorem CaptureSet_new_single_definition key io pre child post :
  Forall (fun c => ¬ Mentions key c) pre ->
  key ∉ CaptureSet.overloadedKeys child ->
  CaptureSet.get key child = Some io ->
  NoDup (JsMap.entries (CaptureSet.definedKeys child)).*1 ->
  Forall (fun c => CaptureSet.get key c = None) post ->
  CaptureSet.get key (CaptureSet.new (pre ++ child :: post)) = Some io.
Proof. apply get_new_single_definition. Qed.

Lemma CaptureSet_new_single_definition_witness :
  let io := mkCapture 1 (VNum 4) 0 in
  let other := singleCapture 8 (mkCapture 2 (VNum 5) 3) in
  CaptureSet.get 7
    (CaptureSet.new ([other; CaptureSet.init]
                     ++ CaptureSet.add 7 io other :: [other]))
  = Some io.
Proof.
  intros io other.
  apply (CaptureSet_new_single_definition 7 io [other; CaptureSet.init]
           (CaptureSet.add 7 io other) [other]).
  - repeat constructor; vm_compute; intros [Hin|[c Hc]];
      solve [ discriminate Hc | by apply elem_of_nil in Hin ].
  - vm_compute. apply not_elem_of_nil.
  - reflexivity.
  - apply (bool_decide_unpack _). vm_compute. reflexivity.
  - by repeat constructor.
Defined.

(* ------------------------------------------------------------------ *)
(** ** [capture] of a result that is not a [Failure] *)

Lemma get_captures key r cs :
  captures r = Some cs -> get key r = map (CaptureSet.get key) cs.
Proof. destruct r; simpl; intros; simplify_eq; done. Qed.

Lemma singleCapture_entries key io :
  JsMap.entries (CaptureSet.definedKeys (singleCapture key io)) = [(key, io)].
Proof. reflexivity. Qed.

(** Every capture set of the cross product with the one set [capture]
    builds resolves the key to the new record. *)
Lemma crossTwo_singleCapture key io foos :
  Forall (fun c => ¬ Mentions key c) foos ->
  crossTwo foos [singleCapture key io] ≠ []
  ∧ Forall (fun c => CaptureSet.get key c = Some io)
           (crossTwo foos [singleCapture key io]).
Proof.
  intros Hall. unfold crossTwo.
  destruct foos as [|foo foos]; simpl Nat.eqb; cbv iota.
  - split; [done|]. repeat constructor. apply singleCapture_get.
  - split; [done|]. unfold flatMap.
    induction Hall as [|foo' foos' Hfoo _ IH]; simpl; constructor; [|done].
    apply (get_new_single_definition key io [foo'] [] (singleCapture key io)).
    + by repeat constructor.
    + apply singleCapture_get.
    + apply singleCapture_get.
    + rewrite singleCapture_entries. apply NoDup_singleton.
    + constructor.
Qed.

(** X12. When the captured transformer yields a result that is not a
    [Failure] and none of its capture sets has anything for the key,
    [capture] returns a new result with the same value, warnings and
    errors, whose canonical capture for the key is a new record of the
    input and of the result object the transformer yielded. *)
Theorem capture_records_result env fuel key t input (traverse : Transform)
    s output s1 :
  run env fuel (traverse input t) s = Ret output s1 ->
  isFailure output = false ->
  Forall (fun c => ¬ Mentions key c) (worlds output) ->
  ∃ r,
    run env fuel (capture key t input traverse) s
    = Ret r (allocate (allocate (allocate s1)))
    ∧ value r = value output
    ∧ warnings r = warnings output
    ∧ errors_or_empty r = errors_or_empty output
    ∧ getCanonical key r
      = Some (mkCapture (next_ref s1) input (result_ref output)).
Proof.
  intros Hrun Hok Hworlds.
  set (io := mkCapture (next_ref s1) input (result_ref output)).
  assert (∃ v, value output = Some v) as [v Hv].
  { destruct output; [by eexists..|done]. }
  unfold capture. rewrite run_bind, Hrun, run_bind, run_NewObject, run_Done.
  rewrite (run_bind_nonFailure _ _ _ _ v), run_valid by done.
  eexists. split; [reflexivity|].
  edestruct (bound_fields output
               (Valid (next_ref (allocate s1)) v [] [singleCapture key io]))
    as (_ & Hvalue & Hws & Hes & Hcs & _); [reflexivity|].
  simpl in Hws, Hes. rewrite app_nil_r in Hws, Hes.
  split_and!; [by rewrite Hv | exact Hws | exact Hes |].
  destruct (crossTwo_singleCapture key io (worlds output) Hworlds)
    as [Hne Hall].
  apply getCanonical_agreeing_worlds.
  - rewrite (get_captures _ _ _ Hcs). by destruct (crossTwo _ _).
  - intros slot. rewrite (get_captures _ _ _ Hcs), list_elem_of_fmap.
    intros (c & -> & Hc). by eapply (proj1 (Forall_forall _ _) Hall).
Qed.

Lemma capture_records_result_witness :
  ∃ r s1,
    run sampleEnv 1 (capture 7 0 (VNum 5) transform) (stateAt 0)
    = Ret r (allocate (allocate (allocate s1)))
    ∧ value r = Some (VNum 5)
    ∧ warnings r = []
    ∧ errors_or_empty r = ["expected 4"]
    ∧ getCanonical 7 r = Some (mkCapture (next_ref s1) (VNum 5) 0).
Proof.
  assert (∃ s1,
    run sampleEnv 1 (transform (VNum 5) 0) (stateAt 0)
    = Ret (Invalid 0 (VNum 5) ["expected 4"] [] [CaptureSet.new []]) s1)
    as [s1 Hrun] by (by eexists).
  destruct (capture_records_result sampleEnv 1 7 0 (VNum 5) transform
              (stateAt 0) _ s1 Hrun) as (r & Hr).
  - reflexivity.
  - repeat constructor. vm_compute. intros [Hin|[c Hc]];
      [by apply elem_of_nil in Hin | discriminate Hc].
  - by exists r, s1.
Defined.

(* ------------------------------------------------------------------ *)
(** ** Termination of a traversal *)

Section Fuel.
Context (env : TrId -> Transformer).

(** A run that does not stop for lack of fuel is the same run with more. *)
Lemma run_fuel_stable fuel :
  ∀ (A : Type) (p : Prog A) s,
    run env fuel p s ≠ OutOfFuel -> run env (S fuel) p s = run env fuel p s.
Proof.
  induction fuel as [|fuel IHfuel]; intros A p;
    induction p as [a0|k IH|i t k IH|r k IH|msg]; intros s.
  all: try (rewrite !run_Done; done).
  all: try (rewrite !run_Throw; done).
  all: try (rewrite !run_NewObject; by apply IH).
  all: try (rewrite !run_ProducerOf; by apply IH).
  - destruct (cached t i s) as [bar|] eqn:Hc.
    + rewrite !(run_Request_hit _ _ _ _ _ _ bar) by done. by apply IH.
    + simpl. by rewrite Hc.
  - destruct (cached t i s) as [bar|] eqn:Hc.
    + rewrite !(run_Request_hit _ _ _ _ _ _ bar) by done. by apply IH.
    + rewrite !run_Request_miss by done.
      destruct (run env fuel (env t i transform) (enter t i s))
        as [result s1| |] eqn:Hbody; [| |done].
      * rewrite (IHfuel _ (env t i transform) (enter t i s))
          by (by rewrite Hbody).
        rewrite Hbody. by apply IH.
      * rewrite (IHfuel _ (env t i transform) (enter t i s))
          by (by rewrite Hbody).
        by rewrite Hbody.
Qed.

Lemma run_fuel_stable_add fuel more (A : Type) (p : Prog A) s :
  run env fuel p s ≠ OutOfFuel ->
  run env (more + fuel) p s = run env fuel p s.
Proof.
  intros Hrun. induction more as [|more IH]; [done|].
  change (S more + fuel) with (S (more + fuel)).
  rewrite (run_fuel_stable (more + fuel)) by (by rewrite IH). exact IH.
Qed.

(** A transformer that first requests itself on its own input never
    returns: the request finds nothing in the cache, since a result is
    stored only when the invocation is over. *)
Lemma run_self_request fuel t i :
  (∃ k, env t i transform = Request i t k) ->
  ∀ (A : Type) (k : ValidationResult -> Prog A) s,
    cached t i s = None -> run env fuel (Request i t k) s = OutOfFuel.
Proof.
  intros [k0 Hbody]. induction fuel as [|fuel IH]; intros A k s Hc.
  - simpl. by rewrite Hc.
  - rewrite run_Request_miss, Hbody by done.
    by rewrite IH by (by rewrite cached_enter).
Qed.

End Fuel.

(** X13. A traversal without cycles terminates: when the evaluation of a
    pair (transformer, input) only requests pairs of lower rank, a
    top-level [transform] call returns or throws once the depth allowed
    for nested invocations reaches the rank of its root, and a larger
    allowance gives the same outcome. *)
Theorem transform_terminates rank env fuel input root s0 :
  Stratified rank env ->
  rank root input ≤ fuel ->
  __transform__ env fuel input root s0 ≠ OutOfFuel
  ∧ ∀ more,
      __transform__ env (more + fuel) input root s0
      = __transform__ env fuel input root s0.
Proof.
  intros Hstrat Hfuel.
  pose proof (transform_enough_fuel rank env Hstrat fuel input root s0 Hfuel)
    as Hends.
  split; [done|]. intros more. unfold __transform__ in *.
  by apply run_fuel_stable_add.
Qed.

Lemma transform_terminates_witness :
  __transform__ sampleEnv 2 (VNum 4) 6 initialState ≠ OutOfFuel
  ∧ ∀ more,
      __transform__ sampleEnv (more + 2) (VNum 4) 6 initialState
      = __transform__ sampleEnv 2 (VNum 4) 6 initialState.
Proof.
  apply (transform_terminates sampleRank sampleEnv 2 (VNum 4) 6 initialState).
  - apply Stratified_sampleEnv.
  - simpl. lia.
Defined.

(** X14. Memoization does not guard against a cycle: a transformer that
    first requests itself on its own input does not return from a request
    that is not yet cached, whatever depth of nested invocations is
    allowed, and neither does a top-level call with it as the root. *)
Theorem self_request_never_returns env t i :
  (∃ k, env t i transform = Request i t k) ->
  ∀ fuel s,
    (cached t i s = None -> run env fuel (transform i t) s = OutOfFuel)
    ∧ __transform__ env fuel i t s = OutOfFuel.
Proof.
  intros Hself fuel s. split.
  - intros Hc. by apply run_self_request.
  - unfold __transform__. destruct Hself as [k Hbody]. rewrite Hbody.
    apply run_self_request; [by exists k | done].
Qed.

Lemma self_request_never_returns_witness :
  let env := fun t : TrId =>
    match t with
    | 0 => fun (input : Val) (transform : Transform) =>
             below ← transform input 0;
             bind below (fun v => valid v None None)
    | _ => isFour
    end in
  run env 5 (transform (VNum 4) 0) (stateAt 0) = OutOfFuel
  ∧ __transform__ env 5 (VNum 4) 0 initialState = OutOfFuel.
Proof.
  intros env.
  assert (∃ k, env 0 (VNum 4) transform = Request (VNum 4) 0 k) as Hself
    by (by eexists).
  split.
  - by apply (self_request_never_returns env 0 (VNum 4) Hself 5 (stateAt 0)).
  - apply (self_request_never_returns env 0 (VNum 4) Hself 5 initialState).
Defined.

(* ------------------------------------------------------------------ *)
(** ** [MultiMap] *)

Section MultiMapFacts.
Context {K V : Type} `{EqDecision K}.

Lemma JsMap_set_keys {W : Type} (k : K) (w : W) (m : JsMap.t K W) :
  (JsMap.set k w m).*1 = if decide (k ∈ m.*1) then m.*1 else m.*1 ++ [k].
Proof.
  induction m as [|[k' w'] m IH].
  - change (([] : JsMap.t K W).*1) with ([] : list K).
    destruct (decide (k ∈ ([] : list K))) as [Hin|_]; [|done].
    by apply elem_of_nil in Hin.
  - change (JsMap.set k w ((k', w') :: m))
      with (if decide (k = k') then (k, w) :: m
            else (k', w') :: JsMap.set k w m).
    rewrite (fmap_cons fst). simpl fst.
    destruct (decide (k = k')) as [->|Hne].
    + rewrite fmap_cons. simpl fst. by rewrite decide_True by left.
    + rewrite fmap_cons, IH. simpl fst.
      destruct (decide (k ∈ m.*1)) as [Hin|Hnotin].
      * by rewrite decide_True by (by right).
      * rewrite decide_False; [done|].
        by intros [?|?]%elem_of_cons.
Qed.

Lemma MultiMap_get_add_eq (k : K) (vs : list V) (m : MultiMap.t K V) :
  (MultiMap.get k (MultiMap.add k vs m)).1 = (MultiMap.get k m).1 ++ vs.
Proof.
  unfold MultiMap.add, MultiMap.get.
  destruct (JsMap.get k m) as [old|] eqn:Hget; simpl;
    by rewrite JsMap_get_set_eq.
Qed.

Lemma MultiMap_get_add_ne (k k' : K) (vs : list V) (m : MultiMap.t K V) :
  k' ≠ k ->
  (MultiMap.get k' (MultiMap.add k vs m)).1 = (MultiMap.get k' m).1.
Proof.
  intros Hne. unfold MultiMap.add, MultiMap.get.
  destruct (JsMap.get k m) as [old|] eqn:Hget; simpl;
    rewrite !JsMap_get_set_ne by done; by destruct (JsMap.get k' m).
Qed.

Lemma MultiMap_add_keys (k : K) (vs : list V) (m : MultiMap.t K V) :
  (MultiMap.add k vs m).*1
  = if decide (k ∈ m.*1) then m.*1 else m.*1 ++ [k].
Proof.
  unfold MultiMap.add, MultiMap.get.
  destruct (JsMap.get k m) as [old|] eqn:Hget; simpl.
  - by rewrite JsMap_set_keys.
  - rewrite !JsMap_set_keys. destruct (decide (k ∈ m.*1)) as [Hin|Hnotin].
    + by rewrite decide_True.
    + rewrite decide_True; [done|]. apply elem_of_app. right. by left.
Qed.

End MultiMapFacts.

(** X15. [MultiMap.add] appends to the list stored under its key and
    leaves the lists of the other keys as they are; a key keeps the place
    of its first [add] in the order of the keys, which is the order in
    which [mergeResults] hands the lists to the cross product. *)
Theorem MultiMap_add_appends {K V : Type} `{EqDecision K}
    (k : K) (vs : list V) (m : MultiMap.t K V) :
  (MultiMap.get k (MultiMap.add k vs m)).1 = (MultiMap.get k m).1 ++ vs
  ∧ (∀ k', k' ≠ k ->
       (MultiMap.get k' (MultiMap.add k vs m)).1 = (MultiMap.get k' m).1)
  ∧ (MultiMap.add k vs m).*1
    = if decide (k ∈ m.*1) then m.*1 else m.*1 ++ [k].
Proof.
  split_and!.
  - apply MultiMap_get_add_eq.
  - intros k'. apply MultiMap_get_add_ne.
  - apply MultiMap_add_keys.
Qed.

Lemma MultiMap_add_appends_witness :
  let m : MultiMap.t nat nat := MultiMap.add 2 [20] (MultiMap.add 1 [10] []) in
  (MultiMap.get 1 (MultiMap.add 1 [11; 12] m)).1 = [10; 11; 12]
  ∧ (MultiMap.get 2 (MultiMap.add 1 [11; 12] m)).1 = [20]
  ∧ (MultiMap.add 1 [11; 12] m).*1 = [1; 2].
Proof.
  intros m.
  destruct (MultiMap_add_appends 1 [11; 12] m) as (Hsame & Hother & Hkeys).
  split_and!; [exact Hsame | apply Hother; lia | exact Hkeys].
Defined.

(* ------------------------------------------------------------------ *)
(** ** [pojo.ts]: [constant] and [instance] *)

Section Pojo.
Context (env : TrId -> Transformer) (fuel : nat) (host : Host).

Lemma typeOf_number v : typeOf host v = "number" <-> ∃ n, v = VNum n.
Proof.
  split; [|by intros [n ->]].
  destruct v as [| |b|n|str|ref]; simpl; try done; [by eexists|].
  by destruct (callable host ref).
Qed.

Lemma typeOf_string v : typeOf host v = "string" <-> ∃ str, v = VStr str.
Proof.
  split; [|by intros [str ->]].
  destruct v as [| |b|n|str|ref]; simpl; try done; [by eexists|].
  by destruct (callable host ref).
Qed.

Lemma typeOf_boolean v : typeOf host v = "boolean" <-> ∃ b, v = VBool b.
Proof.
  split; [|by intros [b ->]].
  destruct v as [| |b|n|str|ref]; simpl; try done; [by eexists|].
  by destruct (callable host ref).
Qed.

End Pojo.

(** X16. [constant value] sorts its input by identity and then by
    [typeof]. The value itself gives a [Valid] and an input with another
    [typeof] gives a [Failure]. Another input with the same [typeof] (so
    [null] against an object that is not callable, and the reverse) gives
    an [Invalid] when the input and the value both convert to a string for
    the message, and the [TypeError] of the conversion when one of them
    does not. A result that is not a [Failure] has the input as its value.
    The numbers are the integers of [Val], so the input is never [NaN]. *)
Theorem constant_classifies env fuel host value0 input (traverse : Transform)
    s :
  let outcome := run env fuel (constant host value0 input traverse) s in
  (input = value0 ->
   ∃ r, outcome = Ret r (allocate s)
        ∧ isValid r = true ∧ value r = Some input)
  ∧ (typeOf host input ≠ typeOf host value0 ->
     ∃ r, outcome = Ret r (allocate s) ∧ isFailure r = true)
  ∧ (input ≠ value0 -> typeOf host input = typeOf host value0 ->
     is_Some (toString host input) -> is_Some (toString host value0) ->
     ∃ r, outcome = Ret r (allocate s)
          ∧ isInvalid r = true ∧ value r = Some input
          ∧ length (errors_or_empty r) = 1)
  ∧ (input ≠ value0 -> typeOf host input = typeOf host value0 ->
     toString host input = None ∨ toString host value0 = None ->
     outcome = Thrown conversion_TypeError).
Proof.
  intros outcome. unfold outcome, constant. split_and!.
  - intros Heq. rewrite decide_True by done. rewrite run_valid.
    by eexists.
  - intros Hty. rewrite decide_False by (by intros ->).
    rewrite decide_False by done. rewrite run_failure. by eexists.
  - intros Hne Hty [printedInput Hinput] [printedValue Hvalue].
    rewrite decide_False, decide_True by done.
    rewrite Hinput, Hvalue, run_invalid. by eexists.
  - intros Hne Hty Hnone. rewrite decide_False, decide_True by done.
    destruct (toString host input) as [printedInput|]; [|apply run_Throw].
    destruct Hnone as [?|Hvalue]; [done|]. rewrite Hvalue. apply run_Throw.
Qed.

Lemma constant_classifies_witness :
  (∃ r, run sampleEnv 0 (constant plainHost (VNum 1) (VNum 1) transform)
            (stateAt 0)
        = Ret r (allocate (stateAt 0))
        ∧ isValid r = true ∧ value r = Some (VNum 1))
  ∧ (∃ r, run sampleEnv 0 (constant plainHost (VNum 1) (VStr "1") transform)
              (stateAt 0)
          = Ret r (allocate (stateAt 0))
          ∧ isFailure r = true)
  ∧ (∃ r, run sampleEnv 0 (constant plainHost VNull (VObj 4) transform)
              (stateAt 0)
          = Ret r (allocate (stateAt 0))
          ∧ isInvalid r = true ∧ value r = Some (VObj 4)
          ∧ length (errors_or_empty r) = 1)
  ∧ run sampleEnv 0 (constant plainHost VNull (VObj 3) transform) (stateAt 0)
    = Thrown conversion_TypeError.
Proof.
  split_and!.
  - by apply (constant_classifies sampleEnv 0 plainHost (VNum 1) (VNum 1)
                transform (stateAt 0)).
  - by apply (constant_classifies sampleEnv 0 plainHost (VNum 1) (VStr "1")
                transform (stateAt 0)).
  - by apply (constant_classifies sampleEnv 0 plainHost VNull (VObj 4)
                transform (stateAt 0)).
  - apply (constant_classifies sampleEnv 0 plainHost VNull (VObj 3)
             transform (stateAt 0)); [done | done | by left].
Defined.

(** X17. [instance] never answers with an [Invalid]: the input is accepted
    as it is or the result is a [Failure]. With [Number], [String] or
    [Boolean] it accepts exactly the primitives of that type, so no object
    at all; with another constructor, exactly what [instanceof] accepts. *)
Theorem instance_accepts env fuel host constructor input
    (traverse : Transform) s :
  ∃ r,
    run env fuel (instance host constructor input traverse) s
    = Ret r (allocate s)
    ∧ isInvalid r = false
    ∧ value r = (if isValid r then Some input else None)
    ∧ (isValid r = true
       <-> match constructor with
           | NumberConstructor => ∃ n, input = VNum n
           | StringConstructor => ∃ str, input = VStr str
           | BooleanConstructor => ∃ b, input = VBool b
           | OtherConstructor ref => instanceOf host input ref = true
           end).
Proof.
  destruct constructor as [| | |ref]; unfold instance; simpl.
  - destruct (decide (typeOf host input = "number")) as [Heq|Hne];
      rewrite ?run_valid, ?run_failure; eexists; (split; [done|]); simpl;
      rewrite <- (typeOf_number host); by repeat split.
  - destruct (decide (typeOf host input = "string")) as [Heq|Hne];
      rewrite ?run_valid, ?run_failure; eexists; (split; [done|]); simpl;
      rewrite <- (typeOf_string host); by repeat split.
  - destruct (decide (typeOf host input = "boolean")) as [Heq|Hne];
      rewrite ?run_valid, ?run_failure; eexists; (split; [done|]); simpl;
      rewrite <- (typeOf_boolean host); by repeat split.
  - destruct (instanceOf host input ref);
      rewrite ?run_valid, ?run_failure; eexists; (split; [done|]);
      by repeat split.
Qed.

Lemma instance_accepts_witness :
  ∃ r,
    run sampleEnv 0 (instance plainHost NumberConstructor (VObj 3) transform)
        (stateAt 0)
    = Ret r (allocate (stateAt 0))
    ∧ isFailure r = true.
Proof.
  destruct (instance_accepts sampleEnv 0 plainHost NumberConstructor (VObj 3)
              transform (stateAt 0)) as (r & Hrun & Hinvalid & _ & Hvalid).
  exists r. split; [exact Hrun|].
  destruct r as [ref v ws cs|ref v es ws cs|ref es ws]; [|done|done].
  destruct (proj1 Hvalid eq_refl) as [n Hn]. discriminate Hn.
Defined.
